(** * Mikoshi: a shallow embedding of the chat service, the prompt
      normalizer, the model gateway and the object-store helper.

    Python values are modelled as follows.
    - A [str] is a list of Unicode code points ([N]); the string methods used
      by the sources ([replace], [strip], [endswith], [re.sub] with the
      pattern [\s+]) are written out on such lists.
    - An exception is a value of [exn]; a call that may raise returns
      [exn + A], and code that mutates the conversation threads the message
      list explicitly, so that what was mutated before a raise stays
      mutated.
    - What lives outside the repository (the remote model, the object store,
      Unicode case mapping) is a parameter of the operation that uses it. *)

From Stdlib Require Import Ascii String.
From Stdlib Require Import NArith ZArith Arith Bool Lia List.
From Stdlib Require QArith.
Import ListNotations.

(* ================================================================== *)
(** * Python strings *)
(* ================================================================== *)

Module PyStr.

Definition char := N.
Definition str := list char.

(** A literal: the code points of an ASCII string. *)
Definition lit (s : string) : str :=
  map N_of_ascii (list_ascii_of_string s).

Definition SPACE : char := 32%N.
Definition TAB : char := 9%N.
Definition NL : char := 10%N.
Definition BACKSLASH : char := 92%N.
Definition LT : char := 60%N.

Fixpoint eqb_str (a b : str) : bool :=
  match a, b with
  | [], [] => true
  | x :: a', y :: b' => N.eqb x y && eqb_str a' b'
  | _, _ => false
  end.

(** [str.isspace] on one code point, which is also what [\s] matches in a
    [str] pattern and what [str.strip()] removes. *)
Definition isspace (c : char) : bool :=
  ((9 <=? c) && (c <=? 13) || (28 <=? c) && (c <=? 32) ||
   (c =? 133) || (c =? 160) || (c =? 5760) ||
   (8192 <=? c) && (c <=? 8202) || (c =? 8232) || (c =? 8233) ||
   (c =? 8239) || (c =? 8287) || (c =? 12288))%N.

(** [s.startswith(p)] *)
Fixpoint startswith (s p : str) {struct p} : bool :=
  match p, s with
  | [], _ => true
  | x :: p', y :: s' => N.eqb x y && startswith s' p'
  | _ :: _, [] => false
  end.

(** [s.endswith(p)] *)
Definition endswith (s p : str) : bool :=
  (length p <=? length s)%nat &&
  eqb_str (skipn (length s - length p) s) p.

(** [s.replace(old, new)]: the leftmost occurrences of [old], not
    overlapping, are replaced from left to right.  [fuel] bounds the number
    of scanning steps; [length s] is always enough.  With an empty [old]
    Python puts [new] before every character and at the end. *)
Fixpoint replace_scan (fuel : nat) (old new s : str) : str :=
  match fuel with
  | O => s
  | S fuel' =>
      match s with
      | [] => []
      | c :: t =>
          if startswith s old
          then new ++ replace_scan fuel' old new (skipn (length old) s)
          else c :: replace_scan fuel' old new t
      end
  end.

Definition replace (s old new : str) : str :=
  match old with
  | [] => new ++ flat_map (fun c => c :: new) s
  | _ :: _ => replace_scan (length s) old new s
  end.

(** [re.sub(r'\s+', ' ', s)].  [in_run] tells that the previous character
    belonged to the run of whitespace being replaced. *)
Fixpoint collapse_runs (p : char -> bool) (in_run : bool) (s : str) : str :=
  match s with
  | [] => []
  | c :: t =>
      if p c
      then (if in_run then collapse_runs p true t
            else SPACE :: collapse_runs p true t)
      else c :: collapse_runs p false t
  end.

Definition re_sub_ws (s : str) : str := collapse_runs isspace false s.

(** [s.lstrip()], [s.rstrip()], [s.strip()] *)
Fixpoint lstrip (s : str) : str :=
  match s with
  | [] => []
  | c :: t => if isspace c then lstrip t else s
  end.

Fixpoint rstrip (s : str) : str :=
  match s with
  | [] => []
  | c :: t =>
      match rstrip t with
      | [] => if isspace c then [] else [c]
      | r => c :: r
      end
  end.

Definition strip (s : str) : str := rstrip (lstrip s).

(** What [replace] does to one character when [old] is the single
    character [c]. *)
Definition one_char (c : char) (new : str) (x : char) : str :=
  if N.eqb c x then new else [x].

(** [s.count(c)] for a one-character [c] *)
Definition count (c : char) (s : str) : nat :=
  length (filter (N.eqb c) s).

(** [p in s] for a non-empty [p]: [p] occurs somewhere in [s]. *)
Fixpoint occurs (p s : str) : bool :=
  startswith s p ||
  match s with
  | [] => false
  | _ :: t => occurs p t
  end.

(** Case mapping restricted to the ASCII letters; [str.upper] and
    [str.lower] agree with these on ASCII strings. *)
Definition is_ascii (s : str) : bool := forallb (fun c => (c <? 128)%N) s.

Definition upper_ascii (s : str) : str :=
  map (fun c => if ((97 <=? c) && (c <=? 122))%N then (c - 32)%N else c) s.

Definition lower_ascii (s : str) : str :=
  map (fun c => if ((65 <=? c) && (c <=? 90))%N then (c + 32)%N else c) s.

Definition agrees_on_ascii (f g : str -> str) : Prop :=
  forall s, is_ascii s = true -> f s = g s.

End PyStr.
Import PyStr.

(* ================================================================== *)
(** * src/utils/prompt_utils.py *)
(* ================================================================== *)

Definition NEWLINE_MARK : str := lit "<NEWLINE>".

Definition clean_prompt (prompt : str)
    (remove_backslashes collapse_whitespace preserve_newlines : bool) : str :=
  match prompt with
  | [] => []
  | _ :: _ =>
      let text := prompt in
      let text := if remove_backslashes
                  then replace text [BACKSLASH] [] else text in
      let text := replace text [TAB] [SPACE] in
      let text :=
        if collapse_whitespace then
          if preserve_newlines then
            let text := replace text [NL] NEWLINE_MARK in
            let text := re_sub_ws text in
            replace text NEWLINE_MARK [NL]
          else re_sub_ws text
        else text in
      strip text
  end.

(** The steps of [clean_prompt], named. *)
Definition strip_backslashes (remove_backslashes : bool) (s : str) : str :=
  if remove_backslashes then replace s [BACKSLASH] [] else s.

Definition tabs_to_spaces (s : str) : str := replace s [TAB] [SPACE].

Definition mark (s : str) : str := replace s [NL] NEWLINE_MARK.

Definition restore (s : str) : str := replace s NEWLINE_MARK [NL].

(** What [clean_prompt] computes once the emptiness test is passed. *)
Definition normalize_text (text : str)
    (remove_backslashes collapse_whitespace preserve_newlines : bool) : str :=
  let text := tabs_to_spaces (strip_backslashes remove_backslashes text) in
  strip (if collapse_whitespace
         then if preserve_newlines then restore (re_sub_ws (mark text))
              else re_sub_ws text
         else text).

(** Whitespace other than the newline. *)
Definition isspace_keep_nl (c : char) : bool :=
  isspace c && negb (N.eqb c NL).

(** [spaced keep prev s]: every whitespace character of [s] is a space that
    follows no space, or a character of [keep]; [prev] tells that a space
    precedes [s]. *)
Fixpoint spaced (keep : char -> bool) (prev : bool) (s : str) : bool :=
  match s with
  | [] => true
  | c :: t =>
      if N.eqb c SPACE then negb prev && spaced keep true t
      else (negb (isspace c) || keep c) && spaced keep false t
  end.

Definition keep_none (c : char) : bool := false.
Definition keep_nl (c : char) : bool := N.eqb c NL.

(** The marker after its first character, and the strings that hold neither
    a newline nor that first character. *)
Definition MARK_TAIL : str := lit "NEWLINE>".

Definition plain (q : str) : bool :=
  forallb (fun d => negb (N.eqb d NL) && negb (N.eqb d LT)) q.

(** [c] does not occur in [s]. *)
Definition lacks (c : char) (s : str) : bool :=
  forallb (fun x => negb (N.eqb x c)) s.

Definition allws (s : str) : bool := forallb isspace s.

Definition starts_clean (s : str) : bool :=
  match s with
  | [] => true
  | c :: _ => negb (isspace c)
  end.

(** The characters a, backslash, b, tab, tab, c, newline, newline, space,
    d. *)
Definition example_prompt : str :=
  lit "a" ++ [BACKSLASH] ++ lit "b" ++ [TAB; TAB] ++ lit "c" ++ [NL; NL]
      ++ lit " d".

(** The version of the input the specification compares with: runs of tabs
    and spaces collapsed to one space, newlines (and everything else)
    untouched. *)
Definition is_blank (c : char) : bool := ((c =? SPACE) || (c =? TAB))%N.

Definition collapse_tabs_spaces (s : str) : str :=
  collapse_runs is_blank false s.

(* ================================================================== *)
(** * Exceptions and stateful code *)
(* ================================================================== *)

Inductive exn : Type :=
| FileNotFoundError (msg : str)
| NotImplementedError (msg : str)
| ValueError (msg : str)
| KeyError (key : str)
| IndexError
| ClientError (code : str) (message : str)
| OtherError (name : str).

(** A computation over the mutable message list of a conversation: the
    list it leaves behind is returned also when it raises. *)
Module Eff.

Definition M (S A : Type) : Type := S -> (exn + A) * S.

Definition ret {S A} (a : A) : M S A := fun s => (inr a, s).

Definition raise {S A} (e : exn) : M S A := fun s => (inl e, s).

Definition bind {S A B} (m : M S A) (k : A -> M S B) : M S B :=
  fun s =>
    match m s with
    | (inl e, s') => (inl e, s')
    | (inr a, s') => k a s'
    end.

Definition get {S} : M S S := fun s => (inr s, s).

Definition modify {S} (f : S -> S) : M S unit := fun s => (inr tt, f s).

(** A call into code that does not touch the state. *)
Definition call {S A} (r : exn + A) : M S A := fun s => (r, s).

End Eff.

Notation "x <- m ;; k" := (Eff.bind m (fun x => k))
  (at level 61, m at next level, right associativity).
Notation "m ;;; k" := (Eff.bind m (fun _ => k))
  (at level 61, right associativity).

(* ================================================================== *)
(** * src/chatbot: messages, the graph and the service *)
(* ================================================================== *)

Inductive Role : Type := Human | Assistant.

Record Message : Type := mkMessage { role : Role; content : str }.

Definition HumanMessage (c : str) : Message := mkMessage Human c.
Definition AIMessage (c : str) : Message := mkMessage Assistant c.

(** [ChatState]: the dict has the single key ["messages"]. *)
Definition ChatState := list Message.

(** [xs[-1]] *)
Definition last_item {A} (xs : list A) : exn + A :=
  match rev xs with
  | [] => inl IndexError
  | x :: _ => inr x
  end.

Section Chatbot.

(** [llm.invoke]: the blocking call to the remote provider. *)
Variable llm_invoke : list Message -> exn + Message.

(** graph.py, [chatbot_node] *)
Definition chatbot_node : Eff.M ChatState unit :=
  messages <- Eff.get ;;
  response <- Eff.call (llm_invoke messages) ;;
  Eff.modify (fun ms => ms ++ [response]).

(** The compiled graph has the one node ["chatbot"], which is both its
    entry and its finish point: [app.invoke] runs it once. *)
Definition app_invoke : Eff.M ChatState unit := chatbot_node.

(** service.py, [ChatbotService.chat] *)
Definition chat (user_input : str) : Eff.M ChatState str :=
  Eff.modify (fun ms => ms ++ [HumanMessage user_input]) ;;;
  app_invoke ;;;
  messages <- Eff.get ;;
  last <- Eff.call (last_item messages) ;;
  Eff.ret (content last).

(** service.py, [ChatbotService.reset] *)
Definition reset : Eff.M ChatState unit := Eff.modify (fun _ => []).

End Chatbot.

(** What a chain returns: an object with a [content] attribute, or anything
    else, of which only [str(response)] is used. *)
Inductive ChainOutput : Type :=
| WithContent (c : str)
| Plain (as_str : str).

Section GenerateNode.

(** [generation_chain.invoke({"question": question})] *)
Variable generation_chain : str -> exn + ChainOutput.

(** nodes/generate.py, [generate_node] *)
Definition generate_node : Eff.M ChatState unit :=
  messages <- Eff.get ;;
  last <- Eff.call (last_item messages) ;;
  let question := content last in
  response <- Eff.call (generation_chain question) ;;
  let response_content :=
    match response with
    | WithContent c => c
    | Plain s => s
    end in
  Eff.modify (fun ms => ms ++ [AIMessage response_content]).

End GenerateNode.

(* ================================================================== *)
(** * src/utils/llm_utils.py *)
(* ================================================================== *)

Module Llm.

(** A number of the YAML document. *)
Inductive num : Type :=
| Int (z : Z)
| Float (q : QArith_base.Q).

(** [model_params]: a mapping, read with [.get(key, default)]. *)
Record ModelParams : Type := mkModelParams {
  temperature : option num;
  max_retries : option num;
  max_output_tokens : option num;
  max_gen_len : option num;
  top_p : option num
}.

(** The per-provider block, read with [model_cfg["..."]]. *)
Record ModelCfg : Type := mkModelCfg {
  model_name : option str;
  model_params : option ModelParams
}.

Record ClientCfg : Type := mkClientCfg {
  name : option str;
  openai : option ModelCfg;
  bedrock : option ModelCfg;
  gemini : option ModelCfg
}.

Record LlmConfig : Type := mkLlmConfig { client : option ClientCfg }.

Record Config : Type := mkConfig { llm_config : option LlmConfig }.

(** The provider clients, with the arguments they are built from. *)
Inductive Client : Type :=
| ChatOpenAI (model : str) (temperature max_retries max_tokens top_p : num)
| ChatBedrockConverse (model : str) (temperature max_tokens : num)
| ChatGoogleGenerativeAI (model : str) (temperature max_output_tokens : num).

(** [d[key]] *)
Definition item {A} (key : string) (v : option A) : exn + A :=
  match v with
  | Some a => inr a
  | None => inl (KeyError (lit key))
  end.

(** [d.get(key, default)] *)
Definition get_or {A} (v : option A) (default : A) : A :=
  match v with
  | Some a => a
  | None => default
  end.

Definition bind {A B} (r : exn + A) (k : A -> exn + B) : exn + B :=
  match r with
  | inl e => inl e
  | inr a => k a
  end.

Notation "x <-- r ;; k" := (bind r (fun x => k))
  (at level 61, r at next level, right associativity).

Section Initialize.

(** [str.upper] *)
Variable upper : str -> str.

(** The outcome of [load_config()]. *)
Variable loaded : exn + Config.

Definition initialize_llm : exn + Client :=
  config <-- loaded ;;
  llm_cfg <-- item "llm_config" (llm_config config) ;;
  client_cfg <-- item "client" (client llm_cfg) ;;
  raw_name <-- item "name" (name client_cfg) ;;
  let client_name := upper raw_name in
  if eqb_str client_name (lit "OPENAI") then
    model_cfg <-- item "openai" (openai client_cfg) ;;
    model <-- item "model_name" (model_name model_cfg) ;;
    params <-- item "model_params" (model_params model_cfg) ;;
    inr (ChatOpenAI model
           (get_or (temperature params) (Int 0))
           (get_or (max_retries params) (Int 3))
           (get_or (max_output_tokens params) (Int 2048))
           (get_or (top_p params) (Float (QArith_base.Qmake 1 1))))
  else if eqb_str client_name (lit "BEDROCK") then
    model_cfg <-- item "bedrock" (bedrock client_cfg) ;;
    model <-- item "model_name" (model_name model_cfg) ;;
    params <-- item "model_params" (model_params model_cfg) ;;
    inr (ChatBedrockConverse model
           (get_or (temperature params) (Int 0))
           (get_or (max_gen_len params) (Int 2048)))
  else if eqb_str client_name (lit "GEMINI") then
    model_cfg <-- item "gemini" (gemini client_cfg) ;;
    model <-- item "model_name" (model_name model_cfg) ;;
    params <-- item "model_params" (model_params model_cfg) ;;
    inr (ChatGoogleGenerativeAI model
           (get_or (temperature params) (Int 0))
           (get_or (max_output_tokens params) (Int 2048)))
  else if eqb_str client_name (lit "SLIP") then
    inl (NotImplementedError (lit "SLIP client not implemented yet."))
  else
    inl (ValueError (lit "Unsupported LLM client: " ++ client_name)).

(** The call a built client makes to its provider. *)
Variable remote : Client -> list Message -> exn + Message.

(** Importing graph.py: [llm = initialize_llm()] runs first, and only then
    is [chatbot_node] defined over that client. *)
Definition import_graph : exn + Eff.M ChatState unit :=
  llm <-- initialize_llm ;;
  inr (chatbot_node (remote llm)).

End Initialize.

(** The configuration selects the provider named [raw]. *)
Definition config_named (raw : str) (cfg : Config) : Prop :=
  exists lc cc,
    llm_config cfg = Some lc /\ client lc = Some cc /\ name cc = Some raw.

(** A configuration that names a provider and has no provider block. *)
Definition config_with_name (raw : str) : Config :=
  mkConfig (Some (mkLlmConfig (Some (mkClientCfg (Some raw) None None None)))).

(** The three providers a client is built for. *)
Definition supported (client_name : str) : bool :=
  eqb_str client_name (lit "OPENAI") ||
  eqb_str client_name (lit "BEDROCK") ||
  eqb_str client_name (lit "GEMINI").

(** What the last two branches of [initialize_llm] raise. *)
Definition rejection (client_name : str) : exn :=
  if eqb_str client_name (lit "SLIP")
  then NotImplementedError (lit "SLIP client not implemented yet.")
  else ValueError (lit "Unsupported LLM client: " ++ client_name).

End Llm.

(* ================================================================== *)
(** * src/utils/s3_utils.py *)
(* ================================================================== *)

Module S3.

(** One entry of a page's ["Contents"]. *)
Record S3Object : Type := mkObject { Key : str }.

(** One page of [list_objects_v2]; ["Contents"] is absent when nothing
    matches. *)
Record Page : Type := mkPage { Contents : option (list S3Object) }.

(** The boto3 client, as far as the helper uses it.  [paginate] gives the
    pages read and the exception that ended the iteration, if any. *)
Record Client : Type := mkClient {
  paginate : str -> str -> list Page * option exn;
  head_object : str -> str -> exn + unit;
  upload_file : str -> str -> str -> exn + unit
}.

Record S3Utils : Type := mkS3Utils { s3 : Client; bucket_name : str }.

(** [page.get("Contents", [])] *)
Definition page_contents (page : Page) : list S3Object :=
  match Contents page with
  | Some objs => objs
  | None => []
  end.

(** [not extensions or len(extensions) == 0] *)
Definition no_extensions (extensions : option (list str)) : bool :=
  match extensions with
  | None => true
  | Some [] => true
  | Some (_ :: _) => false
  end.

Definition ext_list (extensions : option (list str)) : list str :=
  match extensions with
  | None => []
  | Some l => l
  end.

(** [os.path.join(a, b)] on a POSIX system *)
Definition path_join (a b : str) : str :=
  if startswith b (lit "/") then b
  else match a with
       | [] => b
       | _ :: _ => if endswith a (lit "/") then a ++ b
                   else a ++ lit "/" ++ b
       end.

(** [d[k] = v] on a dict kept in insertion order *)
Fixpoint dict_set (d : list (str * str)) (k v : str) : list (str * str) :=
  match d with
  | [] => [(k, v)]
  | (k', v') :: d' =>
      if eqb_str k' k then (k', v) :: d' else (k', v') :: dict_set d' k v
  end.

(** The keys the listing yields, page after page. *)
Definition listed_keys (pages : list Page) : list str :=
  flat_map (fun page => map Key (page_contents page)) pages.

Section Helper.

(** [str.lower] *)
Variable lower : str -> str.

Variable self : S3Utils.

(** [any(key.lower().endswith(ext.lower()) for ext in extensions)] *)
Definition matches_ext_nocase (key : str) (extensions : list str) : bool :=
  existsb (fun ext => endswith (lower key) (lower ext)) extensions.

Definition list_files_page (extensions : option (list str))
    (output_files : list str) (page : Page) : list str :=
  if no_extensions extensions
  then output_files ++ map Key (page_contents page)
  else output_files ++
       map Key (filter (fun f => matches_ext_nocase (Key f)
                                   (ext_list extensions))
                  (page_contents page)).

Definition list_files_with_ext (prefix : str)
    (extensions : option (list str)) : exn + list str :=
  let '(pages, failure) := paginate (s3 self) (bucket_name self) prefix in
  let output_files := fold_left (list_files_page extensions) pages [] in
  match failure with
  | Some e => inl e
  | None => inr output_files
  end.

Definition file_exists_in_s3 (key : str) : exn + bool :=
  match head_object (s3 self) (bucket_name self) key with
  | inr _ => inr true
  | inl (ClientError code message) =>
      if eqb_str code (lit "404") then inr false
      else inl (ClientError code message)
  | inl e => inl e
  end.

(** The second component is what was printed. *)
Definition upload_file_to_s3 (key local_file_path : str)
    : (exn + bool) * list str :=
  match upload_file (s3 self) local_file_path (bucket_name self) key with
  | inr _ => (inr true, [])
  | inl (FileNotFoundError _) => (inr false, [lit "The file was not found."])
  | inl e => (inl e, [])
  end.

(** [any(f.endswith(ext) for ext in extensions)] *)
Definition matches_ext (f : str) (extensions : list str) : bool :=
  existsb (fun ext => endswith f ext) extensions.

(** Lines 190 to 197 of [copy_local_dir_to_s3]: the files to upload.
    [walk] is what [os.walk(src_dir)] yields. *)
Definition local_targets (walk : list (str * list str * list str))
    (src_dir : str) (extensions : option (list str)) : list str :=
  let tgt_files :=
    flat_map (fun '(dp, dn, fn) => map (fun f => path_join dp f) fn) walk in
  let tgt_files :=
    match extensions with
    | Some ((_ :: _) as exts) =>
        filter (fun f => matches_ext f exts) tgt_files
    | _ => tgt_files
    end in
  map (fun f => replace f (src_dir ++ lit "/") []) tgt_files.

Fixpoint upload_all (src_dir dest_prefix : str) (tgt_files : list str)
    (uploaded_files : list (str * str)) : exn + list (str * str) :=
  match tgt_files with
  | [] => inr uploaded_files
  | tgt_file :: rest =>
      match upload_file (s3 self) (path_join src_dir tgt_file)
              (bucket_name self) (path_join dest_prefix tgt_file) with
      | inl e => inl e
      | inr _ =>
          upload_all src_dir dest_prefix rest
            (dict_set uploaded_files (path_join src_dir tgt_file)
               (lit "s3://" ++ bucket_name self ++ lit "/" ++
                path_join dest_prefix tgt_file))
      end
  end.

Definition copy_local_dir_to_s3 (walk : list (str * list str * list str))
    (src_dir dest_prefix : str) (extensions : option (list str))
    : exn + list (str * str) :=
  upload_all src_dir dest_prefix (local_targets walk src_dir extensions) [].

End Helper.

(** A client over a fixed listing, on which every upload succeeds and
    [head_object] answers [head]. *)
Definition fixed_client (pages : list Page) (head : exn + unit) : Client :=
  mkClient (fun _ _ => (pages, None)) (fun _ _ => head)
           (fun _ _ _ => inr tt).

(** A client whose uploads find no local file. *)
Definition no_local_file_client : Client :=
  mkClient (fun _ _ => ([], None)) (fun _ _ => inr tt)
           (fun f _ _ => inl (FileNotFoundError f)).

Definition three_keys : list str := [lit "a.txt"; lit "b.json"; lit "c.TXT"].

Definition three_objects_page : Page :=
  mkPage (Some (map mkObject three_keys)).

Definition example_utils : S3Utils :=
  mkS3Utils (fixed_client [three_objects_page] (inr tt)) (lit "bucket").

(** [os.walk("d")] over a directory holding the three files. *)
Definition example_walk : list (str * list str * list str) :=
  [(lit "d", [], three_keys)].

End S3.

(* ================================================================== *)
(** * Further string and dict methods *)
(* ================================================================== *)

Definition SLASH : char := 47%N.

(** [s[i:]] *)
Definition slice_from (i : Z) (s : str) : str :=
  if (i <? 0)%Z then skipn (length s - Z.to_nat (- i)) s
  else skipn (Z.to_nat i) s.

(** [s.find(c)] for a one-character [c]: the first index, or -1 *)
Fixpoint find_char (c : char) (s : str) : Z :=
  match s with
  | [] => (-1)%Z
  | x :: t =>
      if N.eqb c x then 0%Z
      else let r := find_char c t in
           if (r <? 0)%Z then (-1)%Z else (r + 1)%Z
  end.

(** [s.split(c)] for a one-character [c] *)
Fixpoint split_on (c : char) (s : str) : list str :=
  match s with
  | [] => [[]]
  | x :: t =>
      if N.eqb x c then [] :: split_on c t
      else match split_on c t with
           | h :: r => (x :: h) :: r
           | [] => [[x]]
           end
  end.

(** [s.split(c, 1)] *)
Fixpoint split_once (c : char) (s : str) : list str :=
  match s with
  | [] => [[]]
  | x :: t =>
      if N.eqb x c then [[]; t]
      else match split_once c t with
           | h :: r => (x :: h) :: r
           | [] => [[x]]
           end
  end.

(** [s.split("/")[-1]]; [split] never gives an empty list. *)
Definition last_segment (s : str) : str := last (split_on SLASH s) [].

(** [s.strip(chars)] *)
Definition among (chars : str) (c : char) : bool := existsb (N.eqb c) chars.

Fixpoint lstrip_by (p : char -> bool) (s : str) : str :=
  match s with
  | [] => []
  | c :: t => if p c then lstrip_by p t else s
  end.

Fixpoint rstrip_by (p : char -> bool) (s : str) : str :=
  match s with
  | [] => []
  | c :: t =>
      match rstrip_by p t with
      | [] => if p c then [] else [c]
      | r => c :: r
      end
  end.

Definition strip_chars (chars s : str) : str :=
  rstrip_by (among chars) (lstrip_by (among chars) s).

(** [s.replace(old, new, 1)]: the first occurrence only *)
Fixpoint replace_first (s old new : str) : str :=
  match s with
  | [] => match old with [] => new | _ :: _ => [] end
  | c :: t =>
      if startswith s old then new ++ skipn (length old) s
      else c :: replace_first t old new
  end.

(** [d.get(k)] on a dict kept in insertion order *)
Fixpoint dict_get (d : list (str * str)) (k : str) : option str :=
  match d with
  | [] => None
  | (k', v) :: d' => if eqb_str k' k then Some v else dict_get d' k
  end.

(* ================================================================== *)
(** * src/utils/file_utils.py *)
(* ================================================================== *)

Definition is_s3_path (path : str) : bool := startswith path (lit "s3://").

(* ================================================================== *)
(** * src/utils/s3_utils.py: the operations that act on the store *)
(* ================================================================== *)

Module Sync.

(** [S3Utils.parse_s3_key] *)
Definition parse_s3_key (s3_path : str) : str :=
  let path_without_scheme := slice_from 5 s3_path in
  let key_start_index := (find_char SLASH path_without_scheme + 1)%Z in
  slice_from key_start_index path_without_scheme.

(** What the helper asks of the outside, in the order it asks. *)
Inductive Call : Type :=
| MakeDirs (path : str)
| DownloadFile (bucket key filename : str)
| CopyObject (src_bucket src_key dest_bucket dest_key : str)
| DeleteObject (bucket key : str)
| Print (line : str).

(** The outside: what [list_objects] answers, and which exception, if any,
    a call raises after the calls made so far. *)
Record Remote : Type := mkRemote {
  list_objects : str -> str -> exn + S3.Page;
  react : list Call -> Call -> option exn
}.

Definition Op (A : Type) : Type := Eff.M (list Call) A.

Definition perform (w : Remote) (c : Call) : Op unit :=
  fun made =>
    match react w made c with
    | Some e => (inl e, made ++ [c])
    | None => (inr tt, made ++ [c])
    end.

Definition print (line : str) : Op unit :=
  Eff.modify (fun made => made ++ [Print line]).

(** [for x in xs: body(x)] *)
Fixpoint for_each {A} (xs : list A) (body : A -> Op unit) : Op unit :=
  match xs with
  | [] => Eff.ret tt
  | x :: rest => body x ;;; for_each rest body
  end.

(** The CLI arguments [download_files_from_s3] reads. *)
Record Args : Type := mkArgs {
  pdf : str;
  markdown : str;
  template_raw : str;
  template_cleaned : str
}.

Section Operations.

Variable lower : str -> str.
Variable w : Remote.

Definition download_object (self : S3.S3Utils)
    (local_download_path file_name : str) : Op str :=
  perform w (MakeDirs local_download_path) ;;;
  let local_file_name := last_segment file_name in
  let download_path := S3.path_join local_download_path local_file_name in
  perform w (DownloadFile (S3.bucket_name self) file_name download_path) ;;;
  Eff.ret download_path.

Fixpoint download_each (self : S3.S3Utils) (local_download_path : str)
    (keys_to_download : list str) (download_loc : list (str * str))
    : Op (list (str * str)) :=
  match keys_to_download with
  | [] => Eff.ret download_loc
  | key :: rest =>
      location <- download_object self local_download_path key ;;
      download_each self local_download_path rest
        (S3.dict_set download_loc key location)
  end.

Definition download_all (self : S3.S3Utils) (local_download_path : str)
    (keys_to_download : list str) : Op (list (str * str)) :=
  download_each self local_download_path keys_to_download [].

(** The body of the loop of [copy_s3_dir_to_local]; [src_prefix] is already
    stripped. *)
Definition copy_one_to_local (self : S3.S3Utils)
    (src_prefix dest_dir s3_file_key : str)
    : Op unit :=
  print (lit "Downloading " ++ s3_file_key ++ lit " to " ++ dest_dir) ;;;
  let s3_file_name := replace s3_file_key (src_prefix ++ lit "/") [] in
  let file_name := last_segment s3_file_name in
  let folder_name := replace s3_file_name file_name [] in
  perform w (MakeDirs (S3.path_join dest_dir folder_name)) ;;;
  perform w (DownloadFile (S3.bucket_name self)
               (S3.path_join src_prefix s3_file_name)
               (S3.path_join dest_dir s3_file_name)).

Definition copy_s3_dir_to_local (self : S3.S3Utils)
    (src_prefix dest_dir : str)
    (extensions : option (list str)) : Op unit :=
  let src_prefix := strip_chars (lit "/") src_prefix in
  s3_file_keys <-
    Eff.call (S3.list_files_with_ext lower self src_prefix extensions) ;;
  perform w (MakeDirs dest_dir) ;;;
  for_each s3_file_keys (copy_one_to_local self src_prefix dest_dir).

Definition copy_one_in_store (self : S3.S3Utils)
    (src_prefix dest_prefix s3_file_key : str)
    : Op unit :=
  let dest_key := replace_first s3_file_key src_prefix dest_prefix in
  print (lit "Copying " ++ s3_file_key ++ lit " to " ++ dest_key) ;;;
  perform w (CopyObject (S3.bucket_name self) s3_file_key
               (S3.bucket_name self) dest_key).

Definition copy_s3_to_s3 (self : S3.S3Utils)
    (src_prefix dest_prefix : str)
    (extensions : option (list str)) : Op unit :=
  s3_file_keys <-
    Eff.call (S3.list_files_with_ext lower self src_prefix extensions) ;;
  for_each s3_file_keys (copy_one_in_store self src_prefix dest_prefix).

(** The [try] covers the call and the lookup of ["Contents"]. *)
Definition delete_s3_folder (self : S3.S3Utils) (prefix : str) : Op unit :=
  contents <-
    Eff.call
      (match list_objects w (S3.bucket_name self) prefix with
       | inr response =>
           match S3.Contents response with
           | Some objs => inr objs
           | None => inr []
           end
       | inl (KeyError _) => inr []
       | inl e => inl e
       end) ;;
  for_each contents
    (fun obj => perform w (DeleteObject (S3.bucket_name self) (S3.Key obj))).

(** [download_if_s3], the function local to [download_files_from_s3];
    [S3Utils(bucket)] is a helper over the same store with another bucket
    name. *)
Definition download_if_s3 (s3_utils : S3.S3Utils)
    (temp_dir s3_path name : str) : Op str :=
  if is_s3_path s3_path then
    print (lit "Downloading " ++ name ++ lit " from S3...") ;;;
    match split_once SLASH (slice_from 5 s3_path) with
    | [bucket; key] =>
        if negb (eqb_str bucket (S3.bucket_name s3_utils))
        then let temp_s3_utils := S3.mkS3Utils (S3.s3 s3_utils) bucket in
             download_object temp_s3_utils temp_dir key
        else download_object s3_utils temp_dir key
    | _ =>
        Eff.raise
          (ValueError (lit "not enough values to unpack (expected 2, got 1)"))
    end
  else Eff.ret s3_path.

Definition download_files_from_s3 (args : Args) (s3_utils : S3.S3Utils)
    (temp_dir : str) : Op (list (str * str)) :=
  pdf_path <- download_if_s3 s3_utils temp_dir (pdf args) (lit "PDF") ;;
  markdown_path <-
    download_if_s3 s3_utils temp_dir (markdown args) (lit "Markdown") ;;
  Eff.ret [(lit "pdf_path", pdf_path);
           (lit "markdown_path", markdown_path);
           (lit "template_raw_path", template_raw args);
           (lit "template_cleaned_path", template_cleaned args)].

End Operations.

End Sync.

(* ================================================================== *)
(** * src/chatbot/nodes/reflect.py and scripts/chat.py *)
(* ================================================================== *)

(** [ReflectionModel] *)
Record Grade : Type := mkGrade { score : str; explanation : str }.

Record ReflectionInfo : Type := mkInfo {
  passed : bool;
  info_explanation : str;
  should_retry : bool
}.

Definition is_human (m : Message) : bool :=
  match role m with
  | Human => true
  | Assistant => false
  end.

(** [next(m.content for m in messages if isinstance(m, HumanMessage))] *)
Definition first_human_content (messages : list Message) : exn + str :=
  match find is_human messages with
  | Some m => inr (content m)
  | None => inl (OtherError (lit "StopIteration"))
  end.

(** nodes/reflect.py, [reflect_node]; [reflection_chain answer question] is
    [reflection_chain.invoke({"answer": ..., "question": ...})].  The state
    it returns is the state it was given. *)
Definition reflect_node (reflection_chain : str -> str -> exn + Grade)
    : Eff.M ChatState ReflectionInfo :=
  messages <- Eff.get ;;
  last <- Eff.call (last_item messages) ;;
  let last_answer := content last in
  question <- Eff.call (first_human_content messages) ;;
  grade <- Eff.call (reflection_chain last_answer question) ;;
  Eff.ret (mkInfo (eqb_str (score grade) (lit "yes"))
                  (explanation grade)
                  (negb (eqb_str (score grade) (lit "yes")))).

Section ChatLoop.

Variable lower : str -> str.
Variable llm_invoke : list Message -> exn + Message.

(** [user_input.lower() in {"exit", "quit"}] *)
Definition is_exit (user_input : str) : bool :=
  eqb_str (lower user_input) (lit "exit") ||
  eqb_str (lower user_input) (lit "quit").

(** The loop of [main].  [stdin] holds what [input] gives, [None] standing
    for [KeyboardInterrupt] or [EOFError], as does the end of the list; the
    last component is what was written to the terminal. *)
Fixpoint main_loop (stdin : list (option str)) (state : ChatState)
    (out : list str) : (exn + unit) * ChatState * list str :=
  match stdin with
  | Some raw :: rest =>
      let out := out ++ [lit "You: "] in
      let user_input := strip raw in
      if is_exit user_input then (inr tt, state, out ++ [lit "Goodbye"])
      else match chat llm_invoke user_input state with
           | (inl e, state') => (inl e, state', out)
           | (inr response, state') =>
               main_loop rest state'
                 (out ++ [lit "Mikoshi: " ++ response ++ [NL]])
           end
  | _ => (inr tt, state, out ++ [lit "You: "; NL :: lit "Exiting..."])
  end.

Definition main (stdin : list (option str))
    : (exn + unit) * ChatState * list str :=
  main_loop stdin [] [lit "Mikoshi (type 'exit' to quit)" ++ [NL]].

End ChatLoop.

(* ================================================================== *)
(** * Facts about strings *)
(* ================================================================== *)

Lemma eqb_str_eq (a b : str) : eqb_str a b = true <-> a = b.
Proof.
  revert b. induction a as [|x a IH]; intros [|y b]; simpl.
  - tauto.
  - split; discriminate.
  - split; discriminate.
  - rewrite andb_true_iff, N.eqb_eq, IH.
    split; [intros [-> ->]; reflexivity | intros E; inversion E; auto].
Qed.

Lemma eqb_str_refl (a : str) : eqb_str a a = true.
Proof. apply eqb_str_eq. reflexivity. Qed.

Lemma eqb_str_neq (a b : str) : eqb_str a b = false <-> a <> b.
Proof.
  rewrite <- eqb_str_eq. destruct (eqb_str a b); split; congruence.
Qed.

(* ================================================================== *)
(** * Properties of the chat service and the graph *)
(* ================================================================== *)

Section ChatbotFacts.

Variable llm_invoke : list Message -> exn + Message.

Lemma last_item_snoc {A} (xs : list A) (x : A) :
  last_item (xs ++ [x]) = inr x.
Proof. unfold last_item. rewrite rev_unit. reflexivity. Qed.

Lemma chatbot_node_ok (ms : ChatState) (r : Message) :
  llm_invoke ms = inr r ->
  chatbot_node llm_invoke ms = (inr tt, ms ++ [r]).
Proof.
  intros H. unfold chatbot_node, Eff.bind, Eff.get, Eff.call, Eff.modify.
  rewrite H. reflexivity.
Qed.

Lemma chatbot_node_raises (ms : ChatState) (e : exn) :
  llm_invoke ms = inl e ->
  chatbot_node llm_invoke ms = (inl e, ms).
Proof.
  intros H. unfold chatbot_node, Eff.bind, Eff.get, Eff.call.
  rewrite H. reflexivity.
Qed.

Lemma chat_ok (ms : ChatState) (user_input : str) (r : Message) :
  llm_invoke (ms ++ [HumanMessage user_input]) = inr r ->
  chat llm_invoke user_input ms =
    (inr (content r), ms ++ [HumanMessage user_input] ++ [r]).
Proof.
  intros H. unfold chat, app_invoke.
  unfold Eff.bind at 1. unfold Eff.modify at 1.
  unfold Eff.bind at 1. rewrite (chatbot_node_ok _ _ H).
  unfold Eff.bind, Eff.get, Eff.call, Eff.ret.
  rewrite last_item_snoc, <- app_assoc. reflexivity.
Qed.

End ChatbotFacts.

(** C1. From the empty conversation, when the remote call succeeds with an
    assistant message [r], [chat] returns the content of [r] and leaves
    exactly two messages: the human message holding the input unchanged,
    immediately followed by [r]. *)
Theorem chat_round_trip
    (llm_invoke : list Message -> exn + Message)
    (user_input : str) (r : Message) :
  llm_invoke [HumanMessage user_input] = inr r ->
  role r = Assistant ->
  let '(reply, messages) := chat llm_invoke user_input [] in
  reply = inr (content r) /\
  messages = [HumanMessage user_input; r] /\
  map role messages = [Human; Assistant] /\
  last_item messages = inr r.
Proof.
  intros Hcall Hrole.
  rewrite (@chat_ok llm_invoke [] user_input r Hcall). simpl.
  rewrite Hrole. repeat split.
Qed.

Lemma chat_round_trip_witness :
  let '(reply, messages) :=
    chat (fun _ => inr (AIMessage (lit "4"))) (lit "2+2?") [] in
  reply = inr (content (AIMessage (lit "4"))) /\
  messages = [HumanMessage (lit "2+2?"); AIMessage (lit "4")] /\
  map role messages = [Human; Assistant] /\
  last_item messages = inr (AIMessage (lit "4")).
Proof.
  apply (@chat_round_trip (fun _ => inr (AIMessage (lit "4"))) (lit "2+2?")
           (AIMessage (lit "4"))); reflexivity.
Defined.

(** C6. When the remote call raises, the generation step leaves the message
    list as it was and the exception reaches the caller; this holds for the
    node of the compiled graph and for [generate_node]. *)
Theorem generation_failure_appends_nothing
    (llm_invoke : list Message -> exn + Message)
    (generation_chain : str -> exn + ChainOutput)
    (ms : ChatState) (last : Message) (e e' : exn) :
  llm_invoke ms = inl e ->
  last_item ms = inr last ->
  generation_chain (content last) = inl e' ->
  chatbot_node llm_invoke ms = (inl e, ms) /\
  app_invoke llm_invoke ms = (inl e, ms) /\
  generate_node generation_chain ms = (inl e', ms).
Proof.
  intros H1 H2 H3. repeat split.
  - apply chatbot_node_raises, H1.
  - apply chatbot_node_raises, H1.
  - unfold generate_node, Eff.bind, Eff.get, Eff.call.
    rewrite H2, H3. reflexivity.
Qed.

Lemma generation_failure_appends_nothing_witness :
  chatbot_node (fun _ => inl (OtherError (lit "APIConnectionError")))
      [HumanMessage (lit "2+2?")] =
    (inl (OtherError (lit "APIConnectionError")),
     [HumanMessage (lit "2+2?")]) /\
  app_invoke (fun _ => inl (OtherError (lit "APIConnectionError")))
      [HumanMessage (lit "2+2?")] =
    (inl (OtherError (lit "APIConnectionError")),
     [HumanMessage (lit "2+2?")]) /\
  generate_node (fun _ => inl (OtherError (lit "RateLimitError")))
      [HumanMessage (lit "2+2?")] =
    (inl (OtherError (lit "RateLimitError")), [HumanMessage (lit "2+2?")]).
Proof.
  apply (@generation_failure_appends_nothing
           (fun _ => inl (OtherError (lit "APIConnectionError")))
           (fun _ => inl (OtherError (lit "RateLimitError")))
           [HumanMessage (lit "2+2?")] (HumanMessage (lit "2+2?")));
    reflexivity.
Defined.

(* ================================================================== *)
(** * Properties of the model gateway *)
(* ================================================================== *)

Section GatewayFacts.

Import Llm.

Variable upper : str -> str.

Lemma initialize_llm_rejects (cfg : Config) (raw : str) :
  config_named raw cfg ->
  supported (upper raw) = false ->
  initialize_llm upper (inr cfg) = inl (rejection (upper raw)).
Proof.
  intros (lc & cc & H1 & H2 & H3) Hs.
  unfold supported in Hs.
  apply orb_false_iff in Hs as [Hs Hg].
  apply orb_false_iff in Hs as [Ho Hb].
  unfold initialize_llm, rejection, Llm.bind, item.
  rewrite H1, H2, H3, Ho, Hb, Hg.
  destruct (eqb_str (upper raw) (lit "SLIP")); reflexivity.
Qed.

End GatewayFacts.

(** C4. When the upper-cased provider name is none of OPENAI, BEDROCK and
    GEMINI, building the client raises: [NotImplementedError] for SLIP,
    [ValueError] for any other name.  Importing the graph module raises the
    same exception whatever the remote provider would do, so no node that
    calls the provider comes to exist. *)
Theorem unsupported_provider_fails_at_construction
    (upper : str -> str) (cfg : Llm.Config) (raw : str) :
  Llm.config_named raw cfg ->
  Llm.supported (upper raw) = false ->
  Llm.initialize_llm upper (inr cfg) = inl (Llm.rejection (upper raw)) /\
  (forall remote,
     Llm.import_graph upper (inr cfg) remote =
       inl (Llm.rejection (upper raw))) /\
  (forall c, Llm.initialize_llm upper (inr cfg) <> inr c).
Proof.
  intros Hn Hs.
  pose proof (initialize_llm_rejects upper cfg raw Hn Hs) as E.
  repeat split.
  - exact E.
  - intros remote. unfold Llm.import_graph. rewrite E. reflexivity.
  - intros c. rewrite E. discriminate.
Qed.

Lemma unsupported_provider_fails_at_construction_witness :
  Llm.initialize_llm upper_ascii (inr (Llm.config_with_name (lit "foo"))) =
    inl (Llm.rejection (upper_ascii (lit "foo"))) /\
  (forall remote,
     Llm.import_graph upper_ascii (inr (Llm.config_with_name (lit "foo")))
       remote = inl (Llm.rejection (upper_ascii (lit "foo")))) /\
  (forall c,
     Llm.initialize_llm upper_ascii (inr (Llm.config_with_name (lit "foo")))
       <> inr c).
Proof.
  apply (@unsupported_provider_fails_at_construction upper_ascii
           (Llm.config_with_name (lit "foo")) (lit "foo")).
  - do 2 eexists. repeat split.
  - reflexivity.
Defined.

Example initialize_llm_FOO :
  Llm.initialize_llm upper_ascii (inr (Llm.config_with_name (lit "Foo"))) =
    inl (ValueError (lit "Unsupported LLM client: FOO")).
Proof. reflexivity. Qed.

Example initialize_llm_slip :
  Llm.initialize_llm upper_ascii (inr (Llm.config_with_name (lit "slip"))) =
    inl (NotImplementedError (lit "SLIP client not implemented yet.")).
Proof. reflexivity. Qed.

(* ================================================================== *)
(** * Properties of the object-store helper *)
(* ================================================================== *)

Section S3Facts.

Import S3.

Variable lower : str -> str.
Variable self : S3Utils.

Lemma map_Key_filter (f : str -> bool) (objs : list S3Object) :
  map Key (filter (fun o => f (Key o)) objs) = filter f (map Key objs).
Proof.
  induction objs as [|o objs IH]; simpl; [reflexivity|].
  destruct (f (Key o)); simpl; rewrite IH; reflexivity.
Qed.

Lemma filter_flat_map {A B} (f : B -> bool) (g : A -> list B) (l : list A) :
  filter f (flat_map g l) = flat_map (fun a => filter f (g a)) l.
Proof.
  induction l as [|a l IH]; simpl; [reflexivity|].
  rewrite filter_app, IH. reflexivity.
Qed.

Lemma fold_list_files_page (extensions : option (list str))
    (pages : list Page) (acc : list str) :
  fold_left (list_files_page lower extensions) pages acc =
  acc ++ (if no_extensions extensions then listed_keys pages
          else filter (fun k => matches_ext_nocase lower k
                                  (ext_list extensions))
                 (listed_keys pages)).
Proof.
  revert acc. induction pages as [|pg pages IH]; intros acc; simpl.
  - destruct (no_extensions extensions); simpl; rewrite app_nil_r;
      reflexivity.
  - rewrite IH. unfold list_files_page, listed_keys.
    destruct (no_extensions extensions); simpl.
    + rewrite <- app_assoc. reflexivity.
    + rewrite filter_app, <- app_assoc.
      rewrite <- (map_Key_filter
                    (fun k => matches_ext_nocase lower k
                                (ext_list extensions))).
      reflexivity.
Qed.

Lemma list_files_with_ext_eq (prefix : str)
    (extensions : option (list str)) (pages : list Page) :
  paginate (s3 self) (bucket_name self) prefix = (pages, None) ->
  list_files_with_ext lower self prefix extensions =
    inr (if no_extensions extensions then listed_keys pages
         else filter (fun k => matches_ext_nocase lower k
                                 (ext_list extensions))
                (listed_keys pages)).
Proof.
  intros H. unfold list_files_with_ext. rewrite H.
  rewrite fold_list_files_page. reflexivity.
Qed.

End S3Facts.

(** C7. When the listing succeeds, [list_files_with_ext] returns, in listing
    order, exactly the listed keys whose lower-cased form ends with the
    lower-cased form of some extension; with no extension list, or an empty
    one, it returns every listed key; and over the keys a.txt, b.json, c.TXT
    the filter [".txt"] keeps a.txt and c.TXT. *)
Theorem list_files_with_ext_filters_case_insensitively
    (lower : str -> str) (self : S3.S3Utils) (prefix : str)
    (pages : list S3.Page) :
  S3.paginate (S3.s3 self) (S3.bucket_name self) prefix = (pages, None) ->
  agrees_on_ascii lower lower_ascii ->
  (forall ext exts,
     S3.list_files_with_ext lower self prefix (Some (ext :: exts)) =
       inr (filter (fun k => existsb (fun e => endswith (lower k) (lower e))
                               (ext :: exts))
              (S3.listed_keys pages))) /\
  (forall ext exts k,
     In k (S3.listed_keys pages) ->
     (exists e, In e (ext :: exts) /\ endswith (lower k) (lower e) = true) <->
     exists l, S3.list_files_with_ext lower self prefix (Some (ext :: exts))
                 = inr l /\ In k l) /\
  S3.list_files_with_ext lower self prefix None =
    inr (S3.listed_keys pages) /\
  S3.list_files_with_ext lower self prefix (Some []) =
    inr (S3.listed_keys pages) /\
  (S3.listed_keys pages = S3.three_keys ->
   S3.list_files_with_ext lower self prefix (Some [lit ".txt"]) =
     inr [lit "a.txt"; lit "c.TXT"]).
Proof.
  intros Hp Hl.
  pose proof (fun exts => @list_files_with_ext_eq lower self prefix exts
                            pages Hp) as E.
  split; [|split; [|split; [|split]]].
  - intros ext exts. apply E.
  - intros ext exts k Hk. rewrite (E (Some (ext :: exts))).
    cbn [S3.no_extensions S3.ext_list].
    split.
    + intros (e & He & Hm). eexists. split; [reflexivity|].
      apply filter_In. split; [exact Hk|].
      unfold S3.matches_ext_nocase. apply existsb_exists. eauto.
    + intros (l & Hlist & Hin). injection Hlist as <-.
      apply filter_In in Hin as [_ Hm].
      change (existsb (fun e => endswith (lower k) (lower e)) (ext :: exts)
              = true) in Hm.
      apply existsb_exists in Hm. exact Hm.
  - apply E.
  - apply E.
  - intros Hk. rewrite (E (Some [lit ".txt"])), Hk. simpl.
    unfold S3.matches_ext_nocase, S3.three_keys. simpl.
    rewrite !(Hl _ (eq_refl : is_ascii (lit ".txt") = true)).
    rewrite !(Hl _ (eq_refl : is_ascii (lit "a.txt") = true)).
    rewrite !(Hl _ (eq_refl : is_ascii (lit "b.json") = true)).
    rewrite !(Hl _ (eq_refl : is_ascii (lit "c.TXT") = true)).
    reflexivity.
Qed.

Lemma list_files_with_ext_filters_case_insensitively_witness :
  (forall ext exts,
     S3.list_files_with_ext lower_ascii S3.example_utils (lit "docs/")
       (Some (ext :: exts)) =
       inr (filter (fun k => existsb (fun e => endswith (lower_ascii k)
                                                 (lower_ascii e))
                               (ext :: exts))
              (S3.listed_keys [S3.three_objects_page]))) /\
  (forall ext exts k,
     In k (S3.listed_keys [S3.three_objects_page]) ->
     (exists e, In e (ext :: exts) /\
                endswith (lower_ascii k) (lower_ascii e) = true) <->
     exists l, S3.list_files_with_ext lower_ascii S3.example_utils
                 (lit "docs/") (Some (ext :: exts)) = inr l /\ In k l) /\
  S3.list_files_with_ext lower_ascii S3.example_utils (lit "docs/") None =
    inr (S3.listed_keys [S3.three_objects_page]) /\
  S3.list_files_with_ext lower_ascii S3.example_utils (lit "docs/") (Some []) =
    inr (S3.listed_keys [S3.three_objects_page]) /\
  (S3.listed_keys [S3.three_objects_page] = S3.three_keys ->
   S3.list_files_with_ext lower_ascii S3.example_utils (lit "docs/")
     (Some [lit ".txt"]) = inr [lit "a.txt"; lit "c.TXT"]).
Proof.
  apply (@list_files_with_ext_filters_case_insensitively lower_ascii
           S3.example_utils (lit "docs/") [S3.three_objects_page]).
  - reflexivity.
  - intros s _. reflexivity.
Defined.

Example list_files_with_ext_three_keys :
  S3.list_files_with_ext lower_ascii S3.example_utils (lit "docs/")
    (Some [lit ".txt"]) = inr [lit "a.txt"; lit "c.TXT"].
Proof. reflexivity. Qed.

(** C5. [file_exists_in_s3] returns false exactly when [head_object] raises
    a [ClientError] whose code is 404; any other exception, a [ClientError]
    with another code or an exception of another kind, reaches the caller
    as it was raised; and it returns true when [head_object] returns. *)
Theorem file_exists_false_only_on_404 (self : S3.S3Utils) (key : str) :
  (S3.file_exists_in_s3 self key = inr false <->
   exists message,
     S3.head_object (S3.s3 self) (S3.bucket_name self) key =
       inl (ClientError (lit "404") message)) /\
  (forall e,
     S3.head_object (S3.s3 self) (S3.bucket_name self) key = inl e ->
     (forall message, e <> ClientError (lit "404") message) ->
     S3.file_exists_in_s3 self key = inl e) /\
  (S3.file_exists_in_s3 self key = inr true <->
   S3.head_object (S3.s3 self) (S3.bucket_name self) key = inr tt).
Proof.
  unfold S3.file_exists_in_s3.
  destruct (S3.head_object (S3.s3 self) (S3.bucket_name self) key)
    as [e|[]] eqn:Hh.
  - destruct e as [m|m|m|k| |code message|n];
      try (repeat split;
           [ discriminate
           | intros [message' Hc]; discriminate
           | intros e' He' _; injection He' as <-; reflexivity
           | discriminate | discriminate ]).
    destruct (eqb_str code (lit "404")) eqn:Hcode.
    + apply eqb_str_eq in Hcode. subst code. repeat split.
      * intros _. exists message. reflexivity.
      * intros e' He' Hne. injection He' as <-.
        exfalso. apply (Hne message). reflexivity.
      * discriminate.
      * discriminate.
    + apply eqb_str_neq in Hcode. repeat split.
      * discriminate.
      * intros [message' Hc]. injection Hc as Hc _. contradiction.
      * intros e' He' _. injection He' as <-. reflexivity.
      * discriminate.
      * discriminate.
  - repeat split; try discriminate.
    intros [message Hc]. discriminate.
Qed.

Example file_exists_unreachable_bucket :
  S3.file_exists_in_s3
    (S3.mkS3Utils
       (S3.fixed_client [] (inl (OtherError (lit "EndpointConnectionError"))))
       (lit "bucket")) (lit "k") =
  inl (OtherError (lit "EndpointConnectionError")).
Proof. reflexivity. Qed.

Example file_exists_forbidden :
  S3.file_exists_in_s3
    (S3.mkS3Utils
       (S3.fixed_client [] (inl (ClientError (lit "403") (lit "Forbidden"))))
       (lit "bucket")) (lit "k") =
  inl (ClientError (lit "403") (lit "Forbidden")).
Proof. reflexivity. Qed.

(** C9. When the upload raises [FileNotFoundError], which is what the
    client does for a local path that does not exist, [upload_file_to_s3]
    raises nothing: it prints a line and returns false.  When the upload
    returns, it returns true.  No [FileNotFoundError] ever leaves it. *)
Theorem upload_missing_file_returns_false
    (self : S3.S3Utils) (key local_file_path : str) :
  (forall msg,
     S3.upload_file (S3.s3 self) local_file_path (S3.bucket_name self) key =
       inl (FileNotFoundError msg) ->
     S3.upload_file_to_s3 self key local_file_path =
       (inr false, [lit "The file was not found."])) /\
  (S3.upload_file (S3.s3 self) local_file_path (S3.bucket_name self) key =
     inr tt ->
   S3.upload_file_to_s3 self key local_file_path = (inr true, [])) /\
  (forall msg,
     fst (S3.upload_file_to_s3 self key local_file_path) <>
       inl (FileNotFoundError msg)).
Proof.
  unfold S3.upload_file_to_s3.
  destruct (S3.upload_file (S3.s3 self) local_file_path
              (S3.bucket_name self) key) as [e|[]].
  - destruct e; repeat split; intros; simpl; try discriminate; reflexivity.
  - repeat split; intros; simpl; try discriminate; reflexivity.
Qed.

Example upload_missing_file_example :
  S3.upload_file_to_s3 (S3.mkS3Utils S3.no_local_file_client (lit "bucket"))
    (lit "reports/r.json") (lit "/tmp/absent.json") =
  (inr false, [lit "The file was not found."]).
Proof. reflexivity. Qed.

(** C10. [copy_local_dir_to_s3] keeps a local path when it ends with one of
    the extensions as they are written, with no case mapping: over a.txt,
    b.json and c.TXT the filter [".txt"] keeps a.txt only and drops c.TXT,
    while [list_files_with_ext] over the same names keeps a.txt and
    c.TXT. *)
Theorem local_sync_filter_is_case_sensitive (lower : str -> str) :
  agrees_on_ascii lower lower_ascii ->
  (forall f exts,
     S3.matches_ext f exts = true <->
     exists e, In e exts /\ endswith f e = true) /\
  (forall walk src_dir ext exts,
     S3.local_targets walk src_dir (Some (ext :: exts)) =
       map (fun f => replace f (src_dir ++ lit "/") [])
         (filter (fun f => existsb (fun e => endswith f e) (ext :: exts))
            (flat_map (fun '(dp, _, fn) => map (S3.path_join dp) fn) walk))) /\
  S3.matches_ext (lit "d/c.TXT") [lit ".txt"] = false /\
  S3.matches_ext_nocase lower (lit "c.TXT") [lit ".txt"] = true /\
  S3.local_targets S3.example_walk (lit "d") (Some [lit ".txt"]) =
    [lit "a.txt"] /\
  S3.copy_local_dir_to_s3 S3.example_utils S3.example_walk (lit "d") (lit "p")
      (Some [lit ".txt"]) =
    inr [(lit "d/a.txt", lit "s3://bucket/p/a.txt")] /\
  S3.list_files_with_ext lower S3.example_utils (lit "") (Some [lit ".txt"]) =
    inr [lit "a.txt"; lit "c.TXT"].
Proof.
  intros Hl.
  split; [|split; [|split; [|split; [|split; [|split]]]]].
  - intros f exts. unfold S3.matches_ext. apply existsb_exists.
  - reflexivity.
  - reflexivity.
  - unfold S3.matches_ext_nocase. simpl.
    rewrite (Hl _ (eq_refl : is_ascii (lit ".txt") = true)).
    rewrite (Hl _ (eq_refl : is_ascii (lit "c.TXT") = true)).
    reflexivity.
  - reflexivity.
  - reflexivity.
  - rewrite (@list_files_with_ext_eq lower S3.example_utils (lit "")
               (Some [lit ".txt"]) [S3.three_objects_page] eq_refl).
    cbn [S3.no_extensions S3.ext_list]. unfold S3.matches_ext_nocase.
    simpl.
    rewrite !(Hl _ (eq_refl : is_ascii (lit ".txt") = true)).
    rewrite !(Hl _ (eq_refl : is_ascii (lit "a.txt") = true)).
    rewrite !(Hl _ (eq_refl : is_ascii (lit "b.json") = true)).
    rewrite !(Hl _ (eq_refl : is_ascii (lit "c.TXT") = true)).
    reflexivity.
Qed.

Lemma local_sync_filter_is_case_sensitive_witness :
  S3.matches_ext (lit "d/c.TXT") [lit ".txt"] = false /\
  S3.matches_ext_nocase lower_ascii (lit "c.TXT") [lit ".txt"] = true /\
  S3.local_targets S3.example_walk (lit "d") (Some [lit ".txt"]) =
    [lit "a.txt"] /\
  S3.list_files_with_ext lower_ascii S3.example_utils (lit "")
      (Some [lit ".txt"]) = inr [lit "a.txt"; lit "c.TXT"].
Proof.
  destruct (@local_sync_filter_is_case_sensitive lower_ascii
              (fun s _ => eq_refl)) as (_ & _ & H1 & H2 & H3 & _ & H4).
  exact (conj H1 (conj H2 (conj H3 H4))).
Defined.

(* ================================================================== *)
(** * Properties of the prompt normalizer *)
(* ================================================================== *)

(** C2 (as the code behaves). On the example input with
    [preserve_newlines] set, [clean_prompt] returns the characters a, b,
    space, c, newline, newline, space, d: the backslash is removed and the
    two tabs become one space, but both newlines stay and so does the space
    after them. *)
Theorem clean_prompt_example :
  clean_prompt example_prompt true true true =
    lit "ab c" ++ [NL; NL] ++ lit " d".
Proof. reflexivity. Qed.

Lemma clean_prompt_example_differs :
  clean_prompt example_prompt true true true <> lit "ab c" ++ [NL] ++ lit "d".
Proof. discriminate. Qed.

(** ** [replace] *)

Lemma replace_scan_fuel (old new : str) (fuel1 : nat) :
  old <> [] ->
  forall (fuel2 : nat) (s : str),
    length s <= fuel1 -> length s <= fuel2 ->
    replace_scan fuel1 old new s = replace_scan fuel2 old new s.
Proof.
  intros Hold. induction fuel1 as [|f1 IH]; intros fuel2 s H1 H2.
  - destruct s; [|simpl in H1; lia]. destruct fuel2; reflexivity.
  - destruct s as [|c t]; [destruct fuel2; reflexivity|].
    destruct fuel2 as [|f2]; [simpl in H2; lia|].
    simpl in H1, H2. cbn [replace_scan].
    destruct (startswith (c :: t) old).
    + f_equal. destruct old as [|o old']; [congruence|].
      cbn [length skipn].
      pose proof (length_skipn (length old') t) as L.
      apply IH; lia.
    + f_equal. apply IH; lia.
Qed.

Lemma replace_nil (o : char) (old' new : str) :
  replace [] (o :: old') new = [].
Proof. reflexivity. Qed.

Lemma replace_cons (c : char) (t : str) (o : char) (old' new : str) :
  replace (c :: t) (o :: old') new =
  if startswith (c :: t) (o :: old')
  then new ++ replace (skipn (length old') t) (o :: old') new
  else c :: replace t (o :: old') new.
Proof.
  unfold replace. cbn [length replace_scan].
  pose proof (length_skipn (length old') t) as L.
  destruct (startswith (c :: t) (o :: old')).
  - f_equal. cbn [skipn]. apply replace_scan_fuel; [discriminate|lia|lia].
  - reflexivity.
Qed.

Lemma replace_one_char (c : char) (new s : str) :
  replace s [c] new = flat_map (one_char c new) s.
Proof.
  induction s as [|x t IH]; [reflexivity|].
  rewrite replace_cons. cbn [startswith length skipn flat_map].
  rewrite andb_true_r, IH. unfold one_char.
  destruct (N.eqb c x); reflexivity.
Qed.

Lemma startswith_app (p r : str) : startswith (p ++ r) p = true.
Proof.
  induction p as [|x p IH]; [reflexivity|]. simpl.
  rewrite N.eqb_refl. exact IH.
Qed.

Lemma startswith_split (s p : str) :
  startswith s p = true -> s = p ++ skipn (length p) s.
Proof.
  revert s. induction p as [|x p IH]; intros s H; [reflexivity|].
  destruct s as [|y s]; [discriminate|]. simpl in H.
  apply andb_true_iff in H as [E H]. apply N.eqb_eq in E. subst y.
  simpl. f_equal. apply IH, H.
Qed.

Lemma skipn_app_exact {A} (p r : list A) : skipn (length p) (p ++ r) = r.
Proof. induction p; simpl; auto. Qed.

(** ** The newline marker *)

Lemma NEWLINE_MARK_eq :
  NEWLINE_MARK = [60; 78; 69; 87; 76; 73; 78; 69; 62]%N.
Proof. reflexivity. Qed.

Lemma restore_nil : restore [] = [].
Proof. reflexivity. Qed.

Lemma replace_hit (old new r : str) :
  old <> [] -> replace (old ++ r) old new = new ++ replace r old new.
Proof.
  intros Hold. destruct old as [|o old']; [congruence|].
  change ((o :: old') ++ r) with (o :: (old' ++ r)).
  rewrite replace_cons.
  change (o :: (old' ++ r)) with ((o :: old') ++ r).
  rewrite startswith_app, skipn_app_exact. reflexivity.
Qed.

Lemma replace_miss (c : char) (t old new : str) :
  old <> [] -> startswith (c :: t) old = false ->
  replace (c :: t) old new = c :: replace t old new.
Proof.
  intros Hold H. destruct old as [|o old']; [congruence|].
  rewrite replace_cons, H. reflexivity.
Qed.

Lemma NEWLINE_MARK_nonempty : NEWLINE_MARK <> [].
Proof. discriminate. Qed.

Lemma restore_mark_app (r : str) :
  restore (NEWLINE_MARK ++ r) = NL :: restore r.
Proof. apply (replace_hit NEWLINE_MARK [NL] r NEWLINE_MARK_nonempty). Qed.

Lemma restore_other (c : char) (t : str) :
  startswith (c :: t) NEWLINE_MARK = false ->
  restore (c :: t) = c :: restore t.
Proof. apply replace_miss, NEWLINE_MARK_nonempty. Qed.

(** Induction along the scan of [restore]. *)
Lemma restore_ind (P : str -> str -> Prop) :
  P [] [] ->
  (forall r, P r (restore r) -> P (NEWLINE_MARK ++ r) (NL :: restore r)) ->
  (forall c t, startswith (c :: t) NEWLINE_MARK = false ->
               P t (restore t) -> P (c :: t) (c :: restore t)) ->
  forall s, P s (restore s).
Proof.
  intros Hnil Hmark Hother s.
  remember (length s) as n eqn:Hn.
  revert s Hn. induction n as [n IH] using lt_wf_ind. intros s Hn.
  destruct s as [|c t]; [exact Hnil|].
  destruct (startswith (c :: t) NEWLINE_MARK) eqn:Hs.
  - pose proof (startswith_split _ _ Hs) as E. rewrite E.
    rewrite restore_mark_app. apply Hmark.
    apply (IH (length (skipn (length NEWLINE_MARK) (c :: t)))); [|reflexivity].
    subst n. rewrite length_skipn. simpl. lia.
  - rewrite (restore_other _ _ Hs). apply Hother; [exact Hs|].
    apply (IH (length t)); [subst n; simpl; lia | reflexivity].
Qed.

Lemma mark_eq (s : str) : mark s = flat_map (one_char NL NEWLINE_MARK) s.
Proof. apply replace_one_char. Qed.

Lemma mark_nil : mark [] = [].
Proof. reflexivity. Qed.

Lemma mark_nl (t : str) : mark (NL :: t) = NEWLINE_MARK ++ mark t.
Proof. rewrite !mark_eq. reflexivity. Qed.

Lemma mark_other (c : char) (t : str) :
  N.eqb c NL = false -> mark (c :: t) = c :: mark t.
Proof.
  intros H. rewrite !mark_eq. cbn [flat_map]. unfold one_char at 1.
  rewrite N.eqb_sym, H. reflexivity.
Qed.

(** ** Whitespace runs *)

Lemma isspace_SPACE : isspace SPACE = true.
Proof. reflexivity. Qed.

Lemma nonspace_not_SPACE (c : char) :
  isspace c = false -> N.eqb c SPACE = false.
Proof.
  intros H. destruct (N.eqb c SPACE) eqn:E; [|reflexivity].
  apply N.eqb_eq in E. subst c. discriminate.
Qed.

Lemma spaced_mark_app (k : char -> bool) (b : bool) (r : str) :
  spaced k b (NEWLINE_MARK ++ r) = spaced k false r.
Proof. rewrite NEWLINE_MARK_eq. reflexivity. Qed.

Lemma collapse_mark_app (b : bool) (r : str) :
  collapse_runs isspace b (NEWLINE_MARK ++ r) =
  NEWLINE_MARK ++ collapse_runs isspace false r.
Proof. rewrite NEWLINE_MARK_eq. reflexivity. Qed.

Lemma spaced_weaken (k : char -> bool) (b : bool) (s : str) :
  spaced k b s = true -> spaced k false s = true.
Proof.
  destruct b; [|auto]. destruct s as [|c t]; [auto|]. simpl.
  destruct (N.eqb c SPACE); [discriminate | auto].
Qed.

Lemma spaced_keep_nl (b : bool) (s : str) :
  spaced keep_none b s = true -> spaced keep_nl b s = true.
Proof.
  revert b. induction s as [|c t IH]; intros b; [auto|]. simpl.
  destruct (N.eqb c SPACE).
  - intros H. apply andb_true_iff in H as [H1 H2].
    rewrite H1. apply IH, H2.
  - intros H. apply andb_true_iff in H as [H1 H2].
    unfold keep_none in H1. rewrite orb_false_r in H1.
    rewrite H1. apply IH, H2.
Qed.

Lemma collapse_spaced (b : bool) (s : str) :
  spaced keep_none b (collapse_runs isspace b s) = true.
Proof.
  revert b. induction s as [|c t IH]; intros b; [reflexivity|].
  cbn [collapse_runs]. destruct (isspace c) eqn:Hc.
  - destruct b; [apply IH|]. cbn [spaced].
    rewrite N.eqb_refl. apply IH.
  - cbn [spaced]. rewrite (nonspace_not_SPACE _ Hc), Hc. apply IH.
Qed.

Lemma restore_spaced (s : str) :
  forall b, spaced keep_none b s = true ->
            spaced keep_nl b (restore s) = true.
Proof.
  apply (restore_ind
           (fun s r => forall b, spaced keep_none b s = true ->
                                 spaced keep_nl b r = true)).
  - auto.
  - intros r IH b H. rewrite spaced_mark_app in H.
    change (spaced keep_nl b (NL :: restore r))
      with (spaced keep_nl false (restore r)).
    apply IH, H.
  - intros c t _ IH b H. cbn [spaced] in *.
    destruct (N.eqb c SPACE).
    + apply andb_true_iff in H as [H1 H2]. rewrite H1. apply IH, H2.
    + apply andb_true_iff in H as [H1 H2].
      unfold keep_none in H1. rewrite orb_false_r in H1.
      rewrite H1. apply IH, H2.
Qed.

Lemma lstrip_spaced (k : char -> bool) (b : bool) (s : str) :
  spaced k b s = true -> spaced k false (lstrip s) = true.
Proof.
  revert b. induction s as [|c t IH]; intros b H; [reflexivity|].
  cbn [lstrip]. destruct (isspace c) eqn:Hc.
  - cbn [spaced] in H. destruct (N.eqb c SPACE);
      apply andb_true_iff in H as [_ H]; apply (IH _ H).
  - apply (spaced_weaken _ _ _ H).
Qed.

Lemma rstrip_cons_empty (c : char) (t : str) :
  rstrip t = [] -> rstrip (c :: t) = if isspace c then [] else [c].
Proof. intros H. cbn [rstrip]. rewrite H. reflexivity. Qed.

Lemma rstrip_cons_nonempty (c : char) (t : str) :
  rstrip t <> [] -> rstrip (c :: t) = c :: rstrip t.
Proof.
  intros H. cbn [rstrip]. destruct (rstrip t); [congruence | reflexivity].
Qed.

Lemma rstrip_empty_dec (t : str) : {rstrip t = []} + {rstrip t <> []}.
Proof. destruct (rstrip t); [left; reflexivity | right; discriminate]. Qed.

Lemma rstrip_spaced (k : char -> bool) (s : str) :
  forall b, spaced k b s = true -> spaced k b (rstrip s) = true.
Proof.
  induction s as [|c t IH]; intros b H; [reflexivity|].
  destruct (rstrip_empty_dec t) as [Hr|Hr].
  - rewrite (rstrip_cons_empty c _ Hr).
    destruct (isspace c) eqn:Hc; [reflexivity|].
    cbn [spaced]. rewrite (nonspace_not_SPACE _ Hc), Hc. reflexivity.
  - rewrite (rstrip_cons_nonempty c t Hr).
    cbn [spaced] in *.
    destruct (N.eqb c SPACE);
      apply andb_true_iff in H as [H1 H2]; rewrite H1;
      apply IH, H2.
Qed.

Lemma collapse_mark_fixed (y : str) :
  forall b, spaced keep_nl b y = true ->
            collapse_runs isspace b (mark y) = mark y.
Proof.
  induction y as [|c t IH]; intros b H; [reflexivity|].
  cbn [spaced] in H. destruct (N.eqb c SPACE) eqn:Hsp.
  - apply N.eqb_eq in Hsp. subst c.
    apply andb_true_iff in H as [Hb H]. destruct b; [discriminate|].
    rewrite mark_other by reflexivity.
    cbn [collapse_runs]. rewrite isspace_SPACE. f_equal. apply IH, H.
  - apply andb_true_iff in H as [Hc H]. unfold keep_nl in Hc.
    destruct (N.eqb c NL) eqn:Hnl.
    + apply N.eqb_eq in Hnl. subst c. rewrite mark_nl, collapse_mark_app.
      f_equal. apply IH, H.
    + rewrite orb_false_r in Hc. apply negb_true_iff in Hc.
      rewrite mark_other by exact Hnl.
      cbn [collapse_runs]. rewrite Hc. f_equal. apply IH, H.
Qed.

(** ** Characters that a step cannot introduce *)

Lemma lacks_app (x : char) (a b : str) :
  lacks x (a ++ b) = lacks x a && lacks x b.
Proof. apply forallb_app. Qed.

Lemma lacks_replace_one (x c : char) (new s : str) :
  lacks x new = true -> lacks x s = true ->
  lacks x (replace s [c] new) = true.
Proof.
  intros Hnew. rewrite replace_one_char.
  induction s as [|y t IH]; intros H; [reflexivity|].
  cbn [flat_map]. rewrite lacks_app.
  simpl in H. apply andb_true_iff in H as [Hy Ht].
  rewrite (IH Ht), andb_true_r. unfold one_char.
  destruct (N.eqb c y); [exact Hnew|]. simpl. rewrite Hy. reflexivity.
Qed.

Lemma lacks_replaced (c : char) (new s : str) :
  lacks c new = true -> lacks c (replace s [c] new) = true.
Proof.
  intros Hnew. rewrite replace_one_char.
  induction s as [|y t IH]; [reflexivity|].
  cbn [flat_map]. rewrite lacks_app, IH, andb_true_r. unfold one_char.
  destruct (N.eqb c y) eqn:E; [exact Hnew|]. simpl.
  rewrite N.eqb_sym, E. reflexivity.
Qed.

Lemma replace_lacking (c : char) (new s : str) :
  lacks c s = true -> replace s [c] new = s.
Proof.
  rewrite replace_one_char.
  induction s as [|y t IH]; intros H; [reflexivity|].
  simpl in H. apply andb_true_iff in H as [Hy Ht].
  cbn [flat_map]. rewrite (IH Ht). unfold one_char.
  apply negb_true_iff in Hy. rewrite N.eqb_sym, Hy. reflexivity.
Qed.

Lemma lacks_collapse (x : char) (p : char -> bool) (s : str) :
  N.eqb SPACE x = false ->
  forall b, lacks x s = true -> lacks x (collapse_runs p b s) = true.
Proof.
  intros Hx. induction s as [|c t IH]; intros b H; [reflexivity|].
  simpl in H. apply andb_true_iff in H as [Hc Ht].
  cbn [collapse_runs]. destruct (p c).
  - destruct b; [apply IH, Ht|]. cbn [lacks forallb].
    rewrite Hx. apply IH, Ht.
  - simpl. rewrite Hc. apply IH, Ht.
Qed.

Lemma lacks_restore (x : char) (s : str) :
  N.eqb NL x = false -> lacks x s = true -> lacks x (restore s) = true.
Proof.
  intros Hx. revert s.
  apply (restore_ind (fun s r => lacks x s = true -> lacks x r = true)).
  - auto.
  - intros r IH H. rewrite lacks_app in H.
    apply andb_true_iff in H as [_ H]. cbn [lacks forallb].
    rewrite Hx. apply IH, H.
  - intros c t _ IH H. simpl in *.
    apply andb_true_iff in H as [Hc Ht]. rewrite Hc. apply IH, Ht.
Qed.

Lemma lacks_lstrip (x : char) (s : str) :
  lacks x s = true -> lacks x (lstrip s) = true.
Proof.
  induction s as [|c t IH]; intros H; [reflexivity|].
  cbn [lstrip]. destruct (isspace c); [|exact H].
  simpl in H. apply andb_true_iff in H as [_ H]. apply IH, H.
Qed.

Lemma lacks_rstrip (x : char) (s : str) :
  lacks x s = true -> lacks x (rstrip s) = true.
Proof.
  induction s as [|c t IH]; intros H; [reflexivity|].
  simpl in H. apply andb_true_iff in H as [Hc Ht].
  destruct (rstrip_empty_dec t) as [Hr|Hr].
  - rewrite (rstrip_cons_empty c t Hr).
    destruct (isspace c); [reflexivity|]. simpl. rewrite Hc. reflexivity.
  - rewrite (rstrip_cons_nonempty c t Hr). simpl. rewrite Hc. apply IH, Ht.
Qed.

Lemma lacks_strip (x : char) (s : str) :
  lacks x s = true -> lacks x (strip s) = true.
Proof. intros H. apply lacks_rstrip, lacks_lstrip, H. Qed.

(** ** [strip] *)

Lemma lstrip_starts_clean (s : str) : starts_clean (lstrip s) = true.
Proof.
  induction s as [|c t IH]; [reflexivity|]. cbn [lstrip].
  destruct (isspace c) eqn:Hc; [exact IH|]. simpl. rewrite Hc. reflexivity.
Qed.

Lemma lstrip_fixed (s : str) : starts_clean s = true -> lstrip s = s.
Proof.
  destruct s as [|c t]; [reflexivity|]. simpl. intros H.
  apply negb_true_iff in H. rewrite H. reflexivity.
Qed.

Lemma rstrip_starts_clean (s : str) :
  starts_clean s = true -> starts_clean (rstrip s) = true.
Proof.
  destruct s as [|c t]; [reflexivity|]. intros H.
  destruct (rstrip_empty_dec t) as [Hr|Hr].
  - rewrite (rstrip_cons_empty c t Hr). simpl in H.
    apply negb_true_iff in H. rewrite H. simpl. rewrite H. reflexivity.
  - rewrite (rstrip_cons_nonempty c t Hr). exact H.
Qed.

Lemma rstrip_idem (s : str) : rstrip (rstrip s) = rstrip s.
Proof.
  induction s as [|c t IH]; [reflexivity|].
  destruct (rstrip_empty_dec t) as [Hr|Hr].
  - rewrite (rstrip_cons_empty c t Hr).
    destruct (isspace c) eqn:Hc; [reflexivity|]. simpl. rewrite Hc.
    reflexivity.
  - rewrite (rstrip_cons_nonempty c t Hr).
    rewrite rstrip_cons_nonempty by (rewrite IH; exact Hr).
    rewrite IH. reflexivity.
Qed.

Lemma strip_idem (s : str) : strip (strip s) = strip s.
Proof.
  unfold strip.
  rewrite (lstrip_fixed (rstrip (lstrip s))).
  - apply rstrip_idem.
  - apply rstrip_starts_clean, lstrip_starts_clean.
Qed.

(** ** Occurrences of the marker *)

Lemma startswith_mark (c : char) (t : str) :
  startswith (c :: t) NEWLINE_MARK = N.eqb LT c && startswith t MARK_TAIL.
Proof. reflexivity. Qed.

Lemma startswith_app_l (a u p : str) :
  startswith a p = true -> startswith (a ++ u) p = true.
Proof.
  revert a. induction p as [|x p IH]; intros a H; [reflexivity|].
  destruct a as [|y a]; [discriminate|]. simpl in *.
  apply andb_true_iff in H as [E H]. rewrite E. apply IH, H.
Qed.

Lemma occurs_app_l (p a u : str) :
  occurs p a = true -> occurs p (a ++ u) = true.
Proof.
  induction a as [|y a IH]; intros H.
  - simpl in H. rewrite orb_false_r in H.
    destruct p; [|discriminate]. destruct u; reflexivity.
  - cbn [occurs app] in *. apply orb_true_iff in H as [H|H].
    + apply orb_true_iff. left. apply (startswith_app_l (y :: a) u p H).
    + apply orb_true_iff. right. apply IH, H.
Qed.

Lemma rstrip_prefix (s : str) : exists u, s = rstrip s ++ u.
Proof.
  induction s as [|c t [u IH]]; [exists []; reflexivity|].
  destruct (rstrip_empty_dec t) as [Hr|Hr].
  - rewrite (rstrip_cons_empty c t Hr). destruct (isspace c).
    + exists (c :: t). reflexivity.
    + exists t. reflexivity.
  - rewrite (rstrip_cons_nonempty c t Hr). exists u. simpl. f_equal. exact IH.
Qed.

Lemma occurs_lstrip (p s : str) :
  occurs p s = false -> occurs p (lstrip s) = false.
Proof.
  induction s as [|c t IH]; intros H; [exact H|].
  cbn [lstrip]. destruct (isspace c); [|exact H].
  cbn [occurs] in H. apply orb_false_iff in H as [_ H]. apply IH, H.
Qed.

Lemma occurs_rstrip (p s : str) :
  occurs p s = false -> occurs p (rstrip s) = false.
Proof.
  intros H. destruct (occurs p (rstrip s)) eqn:E; [|reflexivity].
  destruct (rstrip_prefix s) as [u Hu].
  apply (occurs_app_l p (rstrip s) u) in E. rewrite <- Hu in E. congruence.
Qed.

Lemma occurs_strip (p s : str) :
  occurs p s = false -> occurs p (strip s) = false.
Proof. intros H. apply occurs_rstrip, occurs_lstrip, H. Qed.

Lemma startswith_restore (q : str) :
  plain q = true ->
  forall t, startswith (restore t) q = true -> startswith t q = true.
Proof.
  induction q as [|d q IH]; intros Hq t H; [reflexivity|].
  simpl in Hq. apply andb_true_iff in Hq as [Hd Hq].
  apply andb_true_iff in Hd as [Hnl _]. apply negb_true_iff in Hnl.
  destruct t as [|c t]; [discriminate|].
  destruct (startswith (c :: t) NEWLINE_MARK) eqn:Hs.
  - rewrite (startswith_split _ _ Hs), restore_mark_app in H.
    cbn [startswith] in H. rewrite Hnl in H. discriminate.
  - rewrite (restore_other c t Hs) in H. cbn [startswith] in *.
    apply andb_true_iff in H as [E H]. rewrite E. apply (IH Hq), H.
Qed.

Lemma occurs_restore (s : str) : occurs NEWLINE_MARK (restore s) = false.
Proof.
  apply (restore_ind (fun _ r => occurs NEWLINE_MARK r = false)).
  - reflexivity.
  - intros r IH. cbn [occurs]. rewrite IH. reflexivity.
  - intros c t Hs IH. cbn [occurs]. rewrite IH, orb_false_r.
    rewrite startswith_mark in *.
    destruct (N.eqb LT c); [|reflexivity]. cbn [andb] in *.
    destruct (startswith (restore t) MARK_TAIL) eqn:E; [|reflexivity].
    apply (startswith_restore MARK_TAIL eq_refl) in E. congruence.
Qed.

Lemma startswith_of_mark (q : str) :
  plain q = true ->
  forall y, startswith (mark y) q = true -> startswith y q = true.
Proof.
  induction q as [|d q IH]; intros Hq y H; [reflexivity|].
  simpl in Hq. apply andb_true_iff in Hq as [Hd Hq].
  apply andb_true_iff in Hd as [_ Hlt]. apply negb_true_iff in Hlt.
  destruct y as [|c t]; [discriminate|].
  destruct (N.eqb c NL) eqn:Hc.
  - apply N.eqb_eq in Hc. subst c. rewrite mark_nl in H.
    change (startswith (NEWLINE_MARK ++ mark t) (d :: q))
      with (N.eqb d LT && startswith (MARK_TAIL ++ mark t) q) in H.
    rewrite Hlt in H. discriminate.
  - rewrite (mark_other c t Hc) in H. cbn [startswith] in *.
    apply andb_true_iff in H as [E H]. rewrite E. apply (IH Hq), H.
Qed.

Lemma restore_mark (y : str) :
  occurs NEWLINE_MARK y = false -> restore (mark y) = y.
Proof.
  induction y as [|c t IH]; intros H; [reflexivity|].
  cbn [occurs] in H. apply orb_false_iff in H as [Hs Ht].
  destruct (N.eqb c NL) eqn:Hc.
  - apply N.eqb_eq in Hc. subst c.
    rewrite mark_nl, restore_mark_app, (IH Ht). reflexivity.
  - rewrite (mark_other c t Hc), restore_other, (IH Ht); [reflexivity|].
    rewrite startswith_mark in *.
    destruct (N.eqb LT c); [|reflexivity]. cbn [andb] in *.
    destruct (startswith (mark t) MARK_TAIL) eqn:E; [|reflexivity].
    apply (startswith_of_mark MARK_TAIL eq_refl) in E. congruence.
Qed.

(** ** Idempotence *)

Lemma clean_prompt_normalize (x : str) (rb cw pn : bool) :
  clean_prompt x rb cw pn = normalize_text x rb cw pn.
Proof.
  destruct x as [|c t]; [|reflexivity].
  destruct rb, cw, pn; reflexivity.
Qed.

Lemma collapse_fixed (y : str) :
  forall b, spaced keep_none b y = true -> collapse_runs isspace b y = y.
Proof.
  induction y as [|c t IH]; intros b H; [reflexivity|].
  cbn [spaced] in H. cbn [collapse_runs].
  destruct (N.eqb c SPACE) eqn:Hsp.
  - apply N.eqb_eq in Hsp. subst c. rewrite isspace_SPACE.
    apply andb_true_iff in H as [Hb H]. destruct b; [discriminate|].
    f_equal. apply IH, H.
  - apply andb_true_iff in H as [Hc H].
    unfold keep_none in Hc. rewrite orb_false_r in Hc.
    apply negb_true_iff in Hc. rewrite Hc. f_equal. apply IH, H.
Qed.

(** The shape the three variants of the pipeline share. *)
Lemma lacks_shape (x : char) (text : str) (cw pn : bool) :
  N.eqb SPACE x = false -> N.eqb NL x = false ->
  lacks x NEWLINE_MARK = true ->
  lacks x text = true ->
  lacks x (strip (if cw
                  then if pn then restore (re_sub_ws (mark text))
                       else re_sub_ws text
                  else text)) = true.
Proof.
  intros Hsp Hnl Hm H. apply lacks_strip. destruct cw; [|exact H].
  destruct pn.
  - apply (lacks_restore x _ Hnl). unfold re_sub_ws.
    apply (lacks_collapse x isspace _ Hsp).
    apply lacks_replace_one; assumption.
  - apply (lacks_collapse x isspace _ Hsp), H.
Qed.

Lemma normalize_lacks_tab (x : str) (rb cw pn : bool) :
  lacks TAB (normalize_text x rb cw pn) = true.
Proof.
  unfold normalize_text. apply lacks_shape; try reflexivity.
  apply lacks_replaced. reflexivity.
Qed.

Lemma normalize_lacks_backslash (x : str) (cw pn : bool) :
  lacks BACKSLASH (normalize_text x true cw pn) = true.
Proof.
  unfold normalize_text. apply lacks_shape; try reflexivity.
  apply lacks_replace_one; [reflexivity|].
  apply lacks_replaced. reflexivity.
Qed.

Lemma normalize_fixed (y : str) (rb cw pn : bool) :
  (rb = true -> lacks BACKSLASH y = true) ->
  lacks TAB y = true ->
  strip y = y ->
  (cw = true -> pn = false -> re_sub_ws y = y) ->
  (cw = true -> pn = true -> restore (re_sub_ws (mark y)) = y) ->
  normalize_text y rb cw pn = y.
Proof.
  intros Hb Ht Hs Hc Hp. unfold normalize_text.
  assert (E : tabs_to_spaces (strip_backslashes rb y) = y).
  { unfold tabs_to_spaces, strip_backslashes. destruct rb.
    - rewrite (replace_lacking BACKSLASH [] y (Hb eq_refl)).
      apply replace_lacking, Ht.
    - apply replace_lacking, Ht. }
  rewrite E. destruct cw; [|exact Hs].
  destruct pn.
  - rewrite (Hp eq_refl eq_refl). exact Hs.
  - rewrite (Hc eq_refl eq_refl). exact Hs.
Qed.

Lemma normalize_text_idempotent (x : str) (rb cw pn : bool) :
  normalize_text (normalize_text x rb cw pn) rb cw pn =
  normalize_text x rb cw pn.
Proof.
  apply normalize_fixed.
  - intros ->. apply normalize_lacks_backslash.
  - apply normalize_lacks_tab.
  - unfold normalize_text. apply strip_idem.
  - intros -> ->. unfold normalize_text, re_sub_ws, strip.
    apply collapse_fixed, rstrip_spaced.
    apply (lstrip_spaced keep_none false), collapse_spaced.
  - intros -> ->. unfold normalize_text.
    set (w := re_sub_ws (mark (tabs_to_spaces (strip_backslashes rb x)))).
    assert (Hw : spaced keep_nl false (strip (restore w)) = true).
    { unfold strip. apply rstrip_spaced.
      apply (lstrip_spaced keep_nl false), restore_spaced.
      apply collapse_spaced. }
    unfold re_sub_ws at 1. rewrite (collapse_mark_fixed _ false Hw).
    apply restore_mark, occurs_strip, occurs_restore.
Qed.

(** C8. [clean_prompt] is idempotent for every setting of its three flags,
    and on every input: in particular on the inputs whose whitespace is
    already collapsed. *)
Theorem clean_prompt_idempotent (x : str) (rb cw pn : bool) :
  clean_prompt (clean_prompt x rb cw pn) rb cw pn = clean_prompt x rb cw pn.
Proof.
  rewrite !clean_prompt_normalize. apply normalize_text_idempotent.
Qed.

(** ** Newlines kept by [preserve_newlines] *)

Lemma collapse_mark_commute (v : str) :
  forall b, collapse_runs isspace b (mark v) =
            mark (collapse_runs isspace_keep_nl b v).
Proof.
  induction v as [|c t IH]; intros b; [reflexivity|].
  destruct (N.eqb c NL) eqn:Hc.
  - apply N.eqb_eq in Hc. subst c.
    rewrite mark_nl, collapse_mark_app, IH.
    change (collapse_runs isspace_keep_nl b (NL :: t))
      with (NL :: collapse_runs isspace_keep_nl false t).
    rewrite mark_nl. reflexivity.
  - rewrite (mark_other c t Hc). cbn [collapse_runs].
    unfold isspace_keep_nl at 1. rewrite Hc, andb_true_r.
    destruct (isspace c).
    + destruct b; [apply IH|].
      rewrite mark_other by reflexivity. f_equal. apply IH.
    + rewrite (mark_other c _ Hc). f_equal. apply IH.
Qed.

Lemma collapse_tabs (p : char -> bool) (v : str) :
  p TAB = true -> p SPACE = true ->
  forall b, collapse_runs p b (tabs_to_spaces v) = collapse_runs p b v.
Proof.
  intros Ht Hs. unfold tabs_to_spaces. rewrite replace_one_char.
  induction v as [|c t IH]; intros b; [reflexivity|].
  cbn [flat_map]. unfold one_char at 1.
  destruct (N.eqb TAB c) eqn:Hc.
  - apply N.eqb_eq in Hc. subst c. cbn [app collapse_runs].
    rewrite Ht, Hs, IH. reflexivity.
  - cbn [app collapse_runs]. rewrite !IH. reflexivity.
Qed.

Lemma startswith_collapse (p : char -> bool) (q : str) :
  lacks SPACE q = true ->
  forall t, startswith (collapse_runs p false t) q = true ->
            startswith t q = true.
Proof.
  induction q as [|d q IH]; intros Hq t H; [reflexivity|].
  simpl in Hq. apply andb_true_iff in Hq as [Hd Hq].
  apply negb_true_iff in Hd.
  destruct t as [|c t]; [discriminate|].
  cbn [collapse_runs] in H. destruct (p c).
  - cbn [startswith] in H. rewrite Hd in H. discriminate.
  - cbn [startswith] in *. apply andb_true_iff in H as [E H].
    rewrite E. apply (IH Hq), H.
Qed.

Lemma occurs_collapse (p : char -> bool) (q : str) :
  lacks SPACE q = true ->
  forall s b, occurs q s = false -> occurs q (collapse_runs p b s) = false.
Proof.
  intros Hq. induction s as [|c t IH]; intros b H; [exact H|].
  cbn [occurs] in H. apply orb_false_iff in H as [Hs Ht].
  destruct q as [|d q]; [discriminate|].
  pose proof Hq as Hq'. simpl in Hq'.
  apply andb_true_iff in Hq' as [Hd Hq'].
  apply negb_true_iff in Hd.
  cbn [collapse_runs]. destruct (p c).
  - destruct b; [apply IH, Ht|].
    cbn [occurs startswith]. rewrite Hd. apply IH, Ht.
  - cbn [occurs]. rewrite (IH false Ht), orb_false_r.
    cbn [startswith] in *. destruct (N.eqb d c); [|reflexivity].
    cbn [andb] in *.
    destruct (startswith (collapse_runs p false t) q) eqn:E; [|reflexivity].
    apply (startswith_collapse p q Hq') in E. congruence.
Qed.

Lemma rstrip_empty_allws (t : str) : rstrip t = [] <-> allws t = true.
Proof.
  induction t as [|c t IH]; [split; reflexivity|].
  destruct (rstrip_empty_dec t) as [Hr|Hr].
  - rewrite (rstrip_cons_empty c t Hr). cbn [allws forallb].
    apply IH in Hr. unfold allws in Hr. rewrite Hr, andb_true_r.
    destruct (isspace c); split; congruence.
  - rewrite (rstrip_cons_nonempty c t Hr). cbn [allws forallb].
    split; [discriminate|]. intros H.
    apply andb_true_iff in H as [_ H]. apply IH in H. contradiction.
Qed.

Section CollapseAndStrip.

Variable p : char -> bool.
Hypothesis p_space : forall c, p c = true -> isspace c = true.

Lemma allws_collapse (t : str) :
  forall b, allws (collapse_runs p b t) = allws t.
Proof.
  induction t as [|c t IH]; intros b; [reflexivity|].
  cbn [collapse_runs]. destruct (p c) eqn:Hc.
  - cbn [allws forallb]. rewrite (p_space c Hc). cbn [andb].
    destruct b; [apply IH|].
    cbn [allws forallb]. rewrite isspace_SPACE. apply IH.
  - cbn [allws forallb]. f_equal. apply IH.
Qed.

Lemma lstrip_collapse (v : str) :
  forall b, lstrip (collapse_runs p b v) = collapse_runs p false (lstrip v).
Proof.
  induction v as [|c t IH]; intros b; [reflexivity|].
  cbn [collapse_runs lstrip]. destruct (p c) eqn:Hc.
  - rewrite (p_space c Hc). destruct b; [apply IH|].
    cbn [lstrip]. rewrite isspace_SPACE. apply IH.
  - cbn [lstrip]. destruct (isspace c); [apply IH|].
    cbn [collapse_runs]. rewrite Hc. reflexivity.
Qed.

Lemma rstrip_collapse (v : str) :
  forall b, rstrip (collapse_runs p b v) = collapse_runs p b (rstrip v).
Proof.
  induction v as [|c t IH]; intros b; [reflexivity|].
  destruct (rstrip_empty_dec t) as [Hr|Hr].
  - rewrite (rstrip_cons_empty c t Hr).
    pose proof (proj1 (rstrip_empty_allws t) Hr) as Ha.
    cbn [collapse_runs]. destruct (p c) eqn:Hc.
    + rewrite (p_space c Hc). cbn [collapse_runs].
      apply rstrip_empty_allws.
      destruct b; [rewrite allws_collapse; exact Ha|].
      cbn [allws forallb]. rewrite isspace_SPACE. cbn [andb].
      change (allws (collapse_runs p true t) = true).
      rewrite allws_collapse. exact Ha.
    + rewrite rstrip_cons_empty.
      * destruct (isspace c); [reflexivity|].
        cbn [collapse_runs]. rewrite Hc. reflexivity.
      * apply rstrip_empty_allws. rewrite allws_collapse. exact Ha.
  - rewrite (rstrip_cons_nonempty c t Hr).
    assert (Hn : forall b', rstrip (collapse_runs p b' t) <> []).
    { intros b' E. apply rstrip_empty_allws in E.
      rewrite allws_collapse in E. apply rstrip_empty_allws in E.
      contradiction. }
    cbn [collapse_runs]. destruct (p c).
    + destruct b; [apply IH|].
      rewrite (rstrip_cons_nonempty _ _ (Hn true)). f_equal. apply IH.
    + rewrite (rstrip_cons_nonempty _ _ (Hn false)). f_equal. apply IH.
Qed.

Lemma strip_collapse (v : str) :
  strip (collapse_runs p false v) = collapse_runs p false (strip v).
Proof. unfold strip. rewrite lstrip_collapse. apply rstrip_collapse. Qed.

Lemma count_collapse (v : str) :
  p NL = false ->
  forall b, count NL (collapse_runs p b v) = count NL v.
Proof.
  intros Hnl. induction v as [|c t IH]; intros b; [reflexivity|].
  cbn [collapse_runs]. unfold count in *. cbn [filter].
  destruct (N.eqb NL c) eqn:Hc.
  - apply N.eqb_eq in Hc. subst c. rewrite Hnl.
    cbn [filter]. rewrite N.eqb_refl. cbn [length]. f_equal. apply IH.
  - destruct (p c).
    + destruct b; [apply IH|]. cbn [filter].
      change (N.eqb NL SPACE) with false. apply IH.
    + cbn [filter]. rewrite Hc. apply IH.
Qed.

Lemma count_strip_collapse (v : str) :
  p NL = false ->
  count NL (strip (collapse_runs p false v)) = count NL (strip v).
Proof. intros Hnl. rewrite strip_collapse. apply count_collapse, Hnl. Qed.

End CollapseAndStrip.

Lemma isspace_keep_nl_space (c : char) :
  isspace_keep_nl c = true -> isspace c = true.
Proof.
  unfold isspace_keep_nl. intros H. apply andb_true_iff in H as [H _].
  exact H.
Qed.

Lemma is_blank_space (c : char) : is_blank c = true -> isspace c = true.
Proof.
  unfold is_blank. intros H. apply orb_true_iff in H as [H|H];
    apply N.eqb_eq in H; subst c; reflexivity.
Qed.

(** Without the marker in the input, [clean_prompt] with both flags set
    collapses the runs of whitespace other than newlines and trims. *)
Lemma clean_prompt_preserving (x : str) (rb : bool) :
  occurs NEWLINE_MARK (strip_backslashes rb x) = false ->
  clean_prompt x rb true true =
    strip (collapse_runs isspace_keep_nl false (strip_backslashes rb x)).
Proof.
  intros H. rewrite clean_prompt_normalize. unfold normalize_text.
  unfold re_sub_ws. rewrite collapse_mark_commute.
  rewrite (collapse_tabs isspace_keep_nl _ eq_refl eq_refl).
  rewrite restore_mark; [reflexivity|].
  apply occurs_collapse; [reflexivity | exact H].
Qed.

(** C3 (as the code behaves). With [collapse_whitespace] and
    [preserve_newlines] set, and an input in which, once the backslashes
    are removed when that is asked for, the text of the marker does not
    occur: the output has as many newlines as the version of that input
    where runs of tabs and spaces are collapsed and newlines untouched has
    after its leading and trailing whitespace is trimmed, which is as many
    as the trimmed input has. *)
Theorem clean_prompt_newline_count (x : str) (rb : bool) :
  occurs NEWLINE_MARK (strip_backslashes rb x) = false ->
  count NL (clean_prompt x rb true true) =
    count NL (strip (collapse_tabs_spaces (strip_backslashes rb x))) /\
  count NL (clean_prompt x rb true true) =
    count NL (strip (strip_backslashes rb x)).
Proof.
  intros H. rewrite (clean_prompt_preserving x rb H).
  unfold collapse_tabs_spaces.
  rewrite (count_strip_collapse isspace_keep_nl isspace_keep_nl_space _
             eq_refl).
  rewrite (count_strip_collapse is_blank is_blank_space _ eq_refl).
  split; reflexivity.
Qed.

Lemma clean_prompt_newline_count_witness :
  count NL (clean_prompt example_prompt true true true) =
    count NL (strip (collapse_tabs_spaces
                       (strip_backslashes true example_prompt))) /\
  count NL (clean_prompt example_prompt true true true) =
    count NL (strip (strip_backslashes true example_prompt)).
Proof.
  apply (clean_prompt_newline_count example_prompt true). reflexivity.
Defined.

(** The count of the specification fails on an input that ends with a
    newline: the final [strip] removes it. *)
Lemma clean_prompt_newline_count_fails :
  ~ (forall (x : str) (rb : bool),
       count NL (clean_prompt x rb true true) =
         count NL (collapse_tabs_spaces x)).
Proof.
  intros H. specialize (H (lit "a" ++ [NL]) true). discriminate H.
Qed.

(** The text of the marker in the input comes out as a newline, which is
    why the count is stated for inputs without it. *)
Example clean_prompt_marker_in_input :
  clean_prompt (lit "a<NEWLINE>b") true true true =
    lit "a" ++ [NL] ++ lit "b" /\
  count NL (clean_prompt (lit "a<NEWLINE>b") true true true) = 1 /\
  count NL (strip (collapse_tabs_spaces (lit "a<NEWLINE>b"))) = 0.
Proof. repeat split. Qed.

Example clean_prompt_trailing_newline :
  clean_prompt (lit "a" ++ [NL]) true true true = lit "a".
Proof. reflexivity. Qed.

(* ================================================================== *)
(** * Further properties of the chat service, the nodes and the loop *)
(* ================================================================== *)

(** X1. On any conversation, a call of [chat] whose remote call succeeds
    with [r] keeps the history and appends the human message and then [r],
    and returns the content of [r]. *)
Theorem chat_appends_one_turn
    (llm_invoke : list Message -> exn + Message)
    (ms : ChatState) (user_input : str) (r : Message) :
  llm_invoke (ms ++ [HumanMessage user_input]) = inr r ->
  chat llm_invoke user_input ms =
    (inr (content r), ms ++ [HumanMessage user_input; r]).
Proof. intros H. apply (chat_ok llm_invoke ms user_input r H). Qed.

Lemma chat_appends_one_turn_witness :
  chat (fun _ => inr (AIMessage (lit "4")))
       (lit "2+2?") [HumanMessage (lit "hi"); AIMessage (lit "hello")] =
    (inr (content (AIMessage (lit "4"))),
     [HumanMessage (lit "hi"); AIMessage (lit "hello")] ++
     [HumanMessage (lit "2+2?"); AIMessage (lit "4")]).
Proof.
  apply (chat_appends_one_turn (fun _ => inr (AIMessage (lit "4")))
           [HumanMessage (lit "hi"); AIMessage (lit "hello")] (lit "2+2?")
           (AIMessage (lit "4"))).
  reflexivity.
Defined.

(** X2. When the remote call raises, [chat] raises the same exception and
    the human message it appended stays in the conversation: nothing is
    rolled back. *)
Theorem chat_failure_keeps_human_message
    (llm_invoke : list Message -> exn + Message)
    (ms : ChatState) (user_input : str) (e : exn) :
  llm_invoke (ms ++ [HumanMessage user_input]) = inl e ->
  chat llm_invoke user_input ms = (inl e, ms ++ [HumanMessage user_input]).
Proof.
  intros H. unfold chat, app_invoke.
  unfold Eff.bind at 1. unfold Eff.modify at 1.
  unfold Eff.bind at 1.
  rewrite (chatbot_node_raises llm_invoke _ e H). reflexivity.
Qed.

Lemma chat_failure_keeps_human_message_witness :
  chat (fun _ => inl (OtherError (lit "RateLimitError"))) (lit "2+2?") [] =
    (inl (OtherError (lit "RateLimitError")), [] ++ [HumanMessage (lit "2+2?")]).
Proof.
  apply (chat_failure_keeps_human_message
           (fun _ => inl (OtherError (lit "RateLimitError"))) []
           (lit "2+2?") (OtherError (lit "RateLimitError"))).
  reflexivity.
Defined.

(** X3. After [reset], whatever the conversation held, the next successful
    [chat] leaves exactly the two messages of that call. *)
Theorem reset_then_chat_forgets_history
    (llm_invoke : list Message -> exn + Message)
    (ms : ChatState) (user_input : str) (r : Message) :
  llm_invoke [HumanMessage user_input] = inr r ->
  (reset ;;; chat llm_invoke user_input) ms =
    (inr (content r), [HumanMessage user_input; r]).
Proof.
  intros H. unfold Eff.bind, reset, Eff.modify.
  apply (chat_ok llm_invoke [] user_input r H).
Qed.

Lemma reset_then_chat_forgets_history_witness :
  (reset ;;; chat (fun _ => inr (AIMessage (lit "4"))) (lit "2+2?"))
    [HumanMessage (lit "hi"); AIMessage (lit "hello")] =
  (inr (content (AIMessage (lit "4"))),
   [HumanMessage (lit "2+2?"); AIMessage (lit "4")]).
Proof.
  apply (reset_then_chat_forgets_history
           (fun _ => inr (AIMessage (lit "4")))
           [HumanMessage (lit "hi"); AIMessage (lit "hello")] (lit "2+2?")
           (AIMessage (lit "4"))).
  reflexivity.
Defined.

(** X4. [generate_node] on an empty conversation raises [IndexError] and
    asks nothing of the chain; otherwise it sends the content of the last
    message, whatever its role, and on success appends one assistant
    message holding the content of the answer, or its [str] when it has
    none. *)
Theorem generate_node_behaviour
    (generation_chain : str -> exn + ChainOutput) :
  generate_node generation_chain [] = (inl IndexError, []) /\
  (forall ms m c,
     last_item ms = inr m ->
     generation_chain (content m) = inr (WithContent c) ->
     generate_node generation_chain ms = (inr tt, ms ++ [AIMessage c])) /\
  (forall ms m s,
     last_item ms = inr m ->
     generation_chain (content m) = inr (Plain s) ->
     generate_node generation_chain ms = (inr tt, ms ++ [AIMessage s])).
Proof.
  split; [reflexivity|].
  split; intros ms m c Hl Hc;
    unfold generate_node, Eff.bind, Eff.get, Eff.call, Eff.modify;
    rewrite Hl, Hc; reflexivity.
Qed.

(** X5. [reflect_node] never changes the conversation, and when it returns
    its two flags are opposite: [should_retry] holds exactly when [passed]
    does not. *)
Theorem reflect_node_keeps_state
    (reflection_chain : str -> str -> exn + Grade) (ms : ChatState) :
  snd (reflect_node reflection_chain ms) = ms /\
  (forall info,
     fst (reflect_node reflection_chain ms) = inr info ->
     should_retry info = negb (passed info)).
Proof.
  unfold reflect_node, Eff.bind, Eff.get, Eff.call, Eff.ret.
  destruct (last_item ms) as [e|m]; [split; [reflexivity|discriminate]|].
  destruct (first_human_content ms) as [e|q];
    [split; [reflexivity|discriminate]|].
  destruct (reflection_chain (content m) q) as [e|g];
    [split; [reflexivity|discriminate]|].
  split; [reflexivity|]. simpl. intros info H. injection H as <-. reflexivity.
Qed.

(** X6. [reflect_node] grades the last message against the first human
    message of the conversation, also when later human messages exist. *)
Theorem reflect_node_grades_first_question
    (reflection_chain : str -> str -> exn + Grade)
    (pre rest : list Message) (q : str) (m : Message) :
  forallb (fun x => negb (is_human x)) pre = true ->
  last_item (pre ++ HumanMessage q :: rest) = inr m ->
  fst (reflect_node reflection_chain (pre ++ HumanMessage q :: rest)) =
    match reflection_chain (content m) q with
    | inl e => inl e
    | inr g => inr (mkInfo (eqb_str (score g) (lit "yes")) (explanation g)
                      (negb (eqb_str (score g) (lit "yes"))))
    end.
Proof.
  intros Hpre Hlast.
  assert (Hq : first_human_content (pre ++ HumanMessage q :: rest) = inr q).
  { unfold first_human_content. clear Hlast.
    induction pre as [|x pre IH]; [reflexivity|].
    simpl in Hpre. apply andb_true_iff in Hpre as [Hx Hpre].
    apply negb_true_iff in Hx. simpl. rewrite Hx. apply IH, Hpre. }
  unfold reflect_node, Eff.bind, Eff.get, Eff.call, Eff.ret.
  rewrite Hlast, Hq.
  destruct (reflection_chain (content m) q); reflexivity.
Qed.

Lemma reflect_node_grades_first_question_witness :
  fst (reflect_node (fun a q => inr (mkGrade (lit "no") (a ++ q)))
         ([] ++ HumanMessage (lit "q1") ::
            [AIMessage (lit "a1"); HumanMessage (lit "q2");
             AIMessage (lit "a2")])) =
    match (fun a q => inr (mkGrade (lit "no") (a ++ q)))
            (content (AIMessage (lit "a2"))) (lit "q1") with
    | inl e => inl e
    | inr g => inr (mkInfo (eqb_str (score g) (lit "yes")) (explanation g)
                      (negb (eqb_str (score g) (lit "yes"))))
    end.
Proof.
  apply (reflect_node_grades_first_question
           (fun a q => inr (mkGrade (lit "no") (a ++ q))) []
           [AIMessage (lit "a1"); HumanMessage (lit "q2");
            AIMessage (lit "a2")] (lit "q1") (AIMessage (lit "a2")));
    reflexivity.
Defined.

(** X7. On an empty conversation [reflect_node] raises [IndexError], and on
    a conversation without a human message it raises [StopIteration]; in
    both cases the grader is not asked. *)
Theorem reflect_node_without_question
    (reflection_chain : str -> str -> exn + Grade) :
  reflect_node reflection_chain [] = (inl IndexError, []) /\
  (forall ms m,
     last_item ms = inr m ->
     forallb (fun x => negb (is_human x)) ms = true ->
     reflect_node reflection_chain ms =
       (inl (OtherError (lit "StopIteration")), ms)).
Proof.
  split; [reflexivity|]. intros ms m Hl Hn.
  assert (Hq : first_human_content ms = inl (OtherError (lit "StopIteration"))).
  { unfold first_human_content. clear Hl.
    induction ms as [|x ms IH]; [reflexivity|].
    simpl in Hn. apply andb_true_iff in Hn as [Hx Hn].
    apply negb_true_iff in Hx. simpl. rewrite Hx. apply IH, Hn. }
  unfold reflect_node, Eff.bind, Eff.get, Eff.call.
  rewrite Hl, Hq. reflexivity.
Qed.

(** X8. Once a line that says exit or quit is read, the loop of [main]
    stops: whatever follows on the terminal changes neither the
    conversation, nor the result, nor what is written. *)
Theorem main_loop_stops_at_exit
    (lower : str -> str) (llm_invoke : list Message -> exn + Message)
    (before after : list (option str)) (raw : str)
    (state : ChatState) (out : list str) :
  is_exit lower (strip raw) = true ->
  main_loop lower llm_invoke (before ++ Some raw :: after) state out =
  main_loop lower llm_invoke (before ++ [Some raw]) state out.
Proof.
  intros H. revert state out.
  induction before as [|x before IH]; intros state out.
  - simpl. rewrite H. reflexivity.
  - destruct x as [l|]; [|reflexivity].
    cbn [app main_loop]. destruct (is_exit lower (strip l)); [reflexivity|].
    destruct (chat llm_invoke (strip l) state) as [[e|response] state'];
      [reflexivity | apply IH].
Qed.

Lemma main_loop_stops_at_exit_witness :
  main_loop lower_ascii (fun _ => inr (AIMessage (lit "4")))
    ([Some (lit "2+2?")] ++ Some (lit " Exit ") :: [Some (lit "3+3?")])
    [] [] =
  main_loop lower_ascii (fun _ => inr (AIMessage (lit "4")))
    ([Some (lit "2+2?")] ++ [Some (lit " Exit ")]) [] [].
Proof.
  apply (main_loop_stops_at_exit lower_ascii
           (fun _ => inr (AIMessage (lit "4")))
           [Some (lit "2+2?")] [Some (lit "3+3?")] (lit " Exit ") [] []).
  reflexivity.
Defined.

(** X9. When every remote call succeeds and no line says exit or quit, the
    loop of [main] runs one turn per line and ends normally at the end of
    the input: the conversation keeps what it held and grows by two
    messages per line. *)
Theorem main_loop_two_messages_per_line
    (lower : str -> str) (llm_invoke : list Message -> exn + Message)
    (lines : list str) :
  (forall msgs, exists r, llm_invoke msgs = inr r) ->
  forallb (fun l => negb (is_exit lower (strip l))) lines = true ->
  forall state out,
  exists state' out',
    main_loop lower llm_invoke (map Some lines) state out =
      (inr tt, state', out') /\
    length state' = length state + 2 * length lines /\
    firstn (length state) state' = state.
Proof.
  intros Hllm. induction lines as [|l lines IH]; intros Hex state out.
  - do 2 eexists. split; [reflexivity|]. split; [simpl; lia|].
    apply firstn_all.
  - simpl in Hex. apply andb_true_iff in Hex as [Hl Hex].
    apply negb_true_iff in Hl.
    destruct (Hllm (state ++ [HumanMessage (strip l)])) as [r Hr].
    cbn [map main_loop]. rewrite Hl.
    rewrite (chat_ok llm_invoke state (strip l) r Hr).
    destruct (IH Hex (state ++ [HumanMessage (strip l)] ++ [r])
                ((out ++ [lit "You: "]) ++
                 [lit "Mikoshi: " ++ content r ++ [NL]]))
      as (state' & out' & E & Hlen & Hpre).
    exists state', out'. split.
    + exact E.
    + split.
      * rewrite Hlen, !length_app. simpl. lia.
      * apply (f_equal (firstn (length state))) in Hpre.
        rewrite firstn_firstn, !length_app in Hpre. simpl length in Hpre.
        replace (Nat.min (length state) (length state + (1 + 1)))
          with (length state) in Hpre by lia.
        rewrite firstn_app, firstn_all, Nat.sub_diag in Hpre.
        simpl in Hpre. rewrite app_nil_r in Hpre. exact Hpre.
Qed.

Lemma main_loop_two_messages_per_line_witness :
  exists state' out',
    main_loop lower_ascii (fun _ => inr (AIMessage (lit "4")))
      (map Some [lit "2+2?"; lit "1+3?"]) [] [] =
      (inr tt, state', out') /\
    length state' = length (@nil Message) + 2 * length [lit "2+2?"; lit "1+3?"] /\
    firstn (length (@nil Message)) state' = [].
Proof.
  apply (main_loop_two_messages_per_line lower_ascii
           (fun _ => inr (AIMessage (lit "4"))) [lit "2+2?"; lit "1+3?"]).
  - intros msgs. exists (AIMessage (lit "4")). reflexivity.
  - reflexivity.
Defined.

(* ================================================================== *)
(** * Further properties of the model gateway *)
(* ================================================================== *)

(** X10. When the name selects a supported provider whose block is absent
    from the configuration, [initialize_llm] raises [KeyError] on the name
    of that block, whatever the other blocks hold. *)
Theorem initialize_llm_missing_block
    (upper : str -> str) (raw : str) (o b g : option Llm.ModelCfg) :
  let cfg blocks :=
    Llm.mkConfig (Some (Llm.mkLlmConfig (Some blocks))) in
  (eqb_str (upper raw) (lit "OPENAI") = true ->
   Llm.initialize_llm upper
     (inr (cfg (Llm.mkClientCfg (Some raw) None b g))) =
     inl (KeyError (lit "openai"))) /\
  (eqb_str (upper raw) (lit "BEDROCK") = true ->
   Llm.initialize_llm upper
     (inr (cfg (Llm.mkClientCfg (Some raw) o None g))) =
     inl (KeyError (lit "bedrock"))) /\
  (eqb_str (upper raw) (lit "GEMINI") = true ->
   Llm.initialize_llm upper
     (inr (cfg (Llm.mkClientCfg (Some raw) o b None))) =
     inl (KeyError (lit "gemini"))).
Proof.
  intros cfg. subst cfg. unfold Llm.initialize_llm. cbn.
  repeat split; intros H.
  - rewrite H. reflexivity.
  - apply eqb_str_eq in H. rewrite H. reflexivity.
  - apply eqb_str_eq in H. rewrite H. reflexivity.
Qed.

(* ================================================================== *)
(** * Further properties of the object-store helper *)
(* ================================================================== *)

Lemma find_char_absent (c : char) (s : str) :
  lacks c s = true -> find_char c s = (-1)%Z.
Proof.
  induction s as [|x t IH]; intros H; [reflexivity|].
  simpl in H. apply andb_true_iff in H as [Hx Ht].
  apply negb_true_iff in Hx. cbn [find_char].
  rewrite N.eqb_sym, Hx, (IH Ht). reflexivity.
Qed.

Lemma find_char_app (c : char) (a r : str) :
  lacks c a = true -> find_char c (a ++ c :: r) = Z.of_nat (length a).
Proof.
  induction a as [|x a IH]; intros H.
  - simpl. rewrite N.eqb_refl. reflexivity.
  - simpl in H. apply andb_true_iff in H as [Hx Ha].
    apply negb_true_iff in Hx. cbn [app find_char length].
    rewrite N.eqb_sym, Hx, (IH Ha).
    destruct (Z.ltb_spec (Z.of_nat (length a)) 0); lia.
Qed.

Lemma slice_from_nat (n : nat) (s : str) :
  slice_from (Z.of_nat n) s = skipn n s.
Proof.
  unfold slice_from. destruct (Z.ltb_spec (Z.of_nat n) 0); [lia|].
  rewrite Nat2Z.id. reflexivity.
Qed.

Lemma skipn_past {A} (a : list A) (x : A) (r : list A) :
  skipn (S (length a)) (a ++ x :: r) = r.
Proof. induction a as [|y a IH]; [reflexivity | exact IH]. Qed.

Lemma parse_s3_key_of_path (bucket key : str) :
  lacks SLASH bucket = true ->
  Sync.parse_s3_key (lit "s3://" ++ bucket ++ lit "/" ++ key) = key.
Proof.
  intros H. unfold Sync.parse_s3_key.
  change (slice_from 5 (lit "s3://" ++ bucket ++ lit "/" ++ key))
    with (bucket ++ SLASH :: key).
  rewrite (find_char_app SLASH bucket key H).
  replace (Z.of_nat (length bucket) + 1)%Z
    with (Z.of_nat (S (length bucket))) by lia.
  rewrite slice_from_nat. apply skipn_past.
Qed.

(** X11. [parse_s3_key] gives back the key of a path made of the scheme, a
    bucket name without a slash, a slash and the key. *)
Theorem parse_s3_key_round_trip (bucket key : str) :
  lacks SLASH bucket = true ->
  Sync.parse_s3_key (lit "s3://" ++ bucket ++ lit "/" ++ key) = key.
Proof. apply parse_s3_key_of_path. Qed.

Lemma parse_s3_key_round_trip_witness :
  Sync.parse_s3_key
    (lit "s3://" ++ lit "my-bucket" ++ lit "/" ++ lit "reports/2024/r.json") =
  lit "reports/2024/r.json".
Proof.
  apply (parse_s3_key_round_trip (lit "my-bucket") (lit "reports/2024/r.json")).
  reflexivity.
Defined.

(** X12. When no slash follows the first five characters, [parse_s3_key]
    returns all that follows them: for a path that names a bucket and no
    key it returns the bucket name, not the empty key. *)
Theorem parse_s3_key_without_slash (s3_path : str) :
  lacks SLASH (skipn 5 s3_path) = true ->
  Sync.parse_s3_key s3_path = skipn 5 s3_path.
Proof.
  intros H. unfold Sync.parse_s3_key.
  change (slice_from 5 s3_path) with (skipn 5 s3_path).
  rewrite (find_char_absent SLASH _ H). reflexivity.
Qed.

Lemma parse_s3_key_without_slash_witness :
  Sync.parse_s3_key (lit "s3://my-bucket") = skipn 5 (lit "s3://my-bucket").
Proof.
  apply (parse_s3_key_without_slash (lit "s3://my-bucket")). reflexivity.
Defined.

Lemma dict_set_In (d : list (str * str)) (k v l u : str) :
  In (l, u) (S3.dict_set d k v) -> In (l, u) d \/ (l = k /\ u = v).
Proof.
  induction d as [|[k' v'] d IH]; simpl.
  - intros [E|[]]. right. inversion E. auto.
  - destruct (eqb_str k' k) eqn:Hk; simpl.
    + intros [E|H]; [|auto]. apply eqb_str_eq in Hk. inversion E. subst.
      right. auto.
    + intros [E|H]; [auto|]. destruct (IH H); auto.
Qed.

Lemma upload_all_entries (self : S3.S3Utils) (src_dir dest_prefix : str)
    (tgts : list str) :
  forall acc d,
    S3.upload_all self src_dir dest_prefix tgts acc = inr d ->
    forall l u,
      In (l, u) d ->
      In (l, u) acc \/
      exists t, In t tgts /\ l = S3.path_join src_dir t /\
                u = lit "s3://" ++ S3.bucket_name self ++ lit "/" ++
                    S3.path_join dest_prefix t.
Proof.
  induction tgts as [|t tgts IH]; intros acc d H l u Hin.
  - simpl in H. injection H as <-. auto.
  - cbn [S3.upload_all] in H.
    destruct (S3.upload_file (S3.s3 self) (S3.path_join src_dir t)
                (S3.bucket_name self) (S3.path_join dest_prefix t));
      [discriminate|].
    destruct (IH _ _ H l u Hin) as [Hacc|(t' & Ht' & E)].
    + apply dict_set_In in Hacc as [Hacc|[-> ->]]; [auto|].
      right. exists t. split; [left; reflexivity | auto].
    + right. exists t'. split; [right; exact Ht' | exact E].
Qed.

(** X13. Every entry that [copy_local_dir_to_s3] returns maps the local
    path of an uploaded file to a path that [is_s3_path] accepts and out of
    which [parse_s3_key] reads the key the file was uploaded under, provided
    the bucket name holds no slash. *)
Theorem copy_local_dir_uris_parse_back
    (self : S3.S3Utils) (walk : list (str * list str * list str))
    (src_dir dest_prefix : str) (extensions : option (list str))
    (uploaded : list (str * str)) :
  lacks SLASH (S3.bucket_name self) = true ->
  S3.copy_local_dir_to_s3 self walk src_dir dest_prefix extensions =
    inr uploaded ->
  forall l u,
    In (l, u) uploaded ->
    is_s3_path u = true /\
    exists t,
      In t (S3.local_targets walk src_dir extensions) /\
      l = S3.path_join src_dir t /\
      Sync.parse_s3_key u = S3.path_join dest_prefix t.
Proof.
  intros Hb H l u Hin. unfold S3.copy_local_dir_to_s3 in H.
  destruct (upload_all_entries self src_dir dest_prefix _ _ _ H l u Hin)
    as [[]|(t & Ht & -> & ->)].
  split.
  - unfold is_s3_path. apply startswith_app.
  - exists t. split; [exact Ht|]. split; [reflexivity|].
    apply parse_s3_key_of_path, Hb.
Qed.

Lemma copy_local_dir_uris_parse_back_witness :
  is_s3_path (lit "s3://bucket/p/a.txt") = true /\
  exists t,
    In t (S3.local_targets S3.example_walk (lit "d") (Some [lit ".txt"])) /\
    lit "d/a.txt" = S3.path_join (lit "d") t /\
    Sync.parse_s3_key (lit "s3://bucket/p/a.txt") = S3.path_join (lit "p") t.
Proof.
  apply (copy_local_dir_uris_parse_back S3.example_utils S3.example_walk
           (lit "d") (lit "p") (Some [lit ".txt"])
           [(lit "d/a.txt", lit "s3://bucket/p/a.txt")]).
  - reflexivity.
  - reflexivity.
  - left. reflexivity.
Defined.

(** ** Downloads *)

Lemma split_on_nonempty (c : char) (s : str) : split_on c s <> [].
Proof.
  destruct s as [|x t]; [discriminate|]. simpl.
  destruct (N.eqb x c); [discriminate|].
  destruct (split_on c t); discriminate.
Qed.

Lemma split_on_lacks (c : char) (s : str) :
  Forall (fun seg => lacks c seg = true) (split_on c s).
Proof.
  induction s as [|x t IH]; [repeat constructor|]. simpl.
  destruct (N.eqb x c) eqn:Hx; [constructor; [reflexivity | exact IH]|].
  destruct (split_on c t) as [|h r]; [repeat constructor; simpl|].
  - rewrite Hx. reflexivity.
  - inversion IH as [|? ? Hh Hr]; subst. constructor; [|exact Hr].
    simpl. rewrite Hx. exact Hh.
Qed.

Lemma last_Forall {A} (P : A -> Prop) (l : list A) (d : A) :
  l <> [] -> Forall P l -> P (last l d).
Proof.
  induction l as [|x l IH]; [congruence|]. intros _ H.
  inversion H as [|? ? Hx Hl]; subst.
  destruct l as [|y l]; [exact Hx|].
  apply IH; [discriminate | exact Hl].
Qed.

Lemma last_segment_lacks_slash (s : str) :
  lacks SLASH (last_segment s) = true.
Proof.
  unfold last_segment.
  apply (last_Forall (fun seg => lacks SLASH seg = true));
    [apply split_on_nonempty | apply split_on_lacks].
Qed.

Lemma last_segment_suffix (c : char) (s : str) :
  exists d, s = d ++ last (split_on c s) [] /\
            (forall h, split_on c s = [h] -> d = []).
Proof.
  induction s as [|x t (d & E & Hd)].
  - exists []. split; [reflexivity | auto].
  - cbn [split_on]. destruct (N.eqb x c).
    + exists (x :: d). split.
      * pose proof (split_on_nonempty c t) as Hn.
        destruct (split_on c t) as [|h r]; [congruence|].
        cbn [app]. f_equal. exact E.
      * intros h Hh. pose proof (split_on_nonempty c t) as Hn.
        inversion Hh; subst. congruence.
    + pose proof (split_on_nonempty c t) as Hn.
      destruct (split_on c t) as [|h r]; [congruence|].
      destruct r as [|h' r].
      * exists []. split; [|auto]. rewrite (Hd h eq_refl) in E.
        simpl in *. f_equal. exact E.
      * exists (x :: d). split; [|discriminate].
        cbn [app]. f_equal. exact E.
Qed.

Lemma path_join_under (a b : str) :
  lacks SLASH b = true -> startswith (S3.path_join a b) a = true.
Proof.
  intros H. unfold S3.path_join.
  assert (Hb : startswith b (lit "/") = false).
  { destruct b as [|x b]; [reflexivity|]. cbn [lacks forallb] in H.
    apply andb_true_iff in H as [H _]. apply negb_true_iff in H.
    change (startswith (x :: b) (lit "/")) with (N.eqb SLASH x && true).
    rewrite N.eqb_sym, H. reflexivity. }
  rewrite Hb. destruct a as [|y a]; [reflexivity|].
  destruct (endswith (y :: a) (lit "/")); apply startswith_app.
Qed.

Lemma perform_ok (w : Sync.Remote) (c : Sync.Call) (made : list Sync.Call) :
  Sync.react w made c = None ->
  Sync.perform w c made = (inr tt, made ++ [c]).
Proof. intros H. unfold Sync.perform. rewrite H. reflexivity. Qed.


(** X14. When its two calls succeed, [download_object] downloads the key
    into a file named after the part of the key that follows its last
    slash, directly inside the directory it was given, and returns that
    path. *)
Theorem download_object_lands_in_directory
    (w : Sync.Remote) (self : S3.S3Utils)
    (local_download_path file_name : str) (made : list Sync.Call) :
  let download_path :=
    S3.path_join local_download_path (last_segment file_name) in
  let download :=
    Sync.DownloadFile (S3.bucket_name self) file_name download_path in
  Sync.react w made (Sync.MakeDirs local_download_path) = None ->
  Sync.react w (made ++ [Sync.MakeDirs local_download_path]) download
    = None ->
  Sync.download_object w self local_download_path file_name made =
    (inr download_path,
     made ++ [Sync.MakeDirs local_download_path; download]) /\
  startswith download_path local_download_path = true /\
  lacks SLASH (last_segment file_name) = true /\
  exists d, file_name = d ++ last_segment file_name.
Proof.
  intros download_path download H1 H2.
  split; [|split; [|split]].
  - unfold Sync.download_object. unfold Eff.bind at 1.
    rewrite (perform_ok w _ made H1). unfold Eff.bind.
    fold download_path. fold download.
    rewrite (perform_ok w _ _ H2). unfold Eff.ret.
    rewrite <- app_assoc. reflexivity.
  - apply path_join_under, last_segment_lacks_slash.
  - apply last_segment_lacks_slash.
  - destruct (last_segment_suffix SLASH file_name) as (d & E & _).
    exists d. exact E.
Qed.

Lemma download_object_lands_in_directory_witness :
  Sync.download_object
    (Sync.mkRemote (fun _ _ => inr (S3.mkPage None)) (fun _ _ => None))
    S3.example_utils (lit "/tmp/dl") (lit "reports/2024/r.json") [] =
    (inr (S3.path_join (lit "/tmp/dl") (last_segment (lit "reports/2024/r.json"))),
     [] ++ [Sync.MakeDirs (lit "/tmp/dl");
            Sync.DownloadFile (S3.bucket_name S3.example_utils)
              (lit "reports/2024/r.json")
              (S3.path_join (lit "/tmp/dl")
                 (last_segment (lit "reports/2024/r.json")))]) /\
  startswith
    (S3.path_join (lit "/tmp/dl") (last_segment (lit "reports/2024/r.json")))
    (lit "/tmp/dl") = true /\
  lacks SLASH (last_segment (lit "reports/2024/r.json")) = true /\
  exists d, lit "reports/2024/r.json" =
            d ++ last_segment (lit "reports/2024/r.json").
Proof.
  apply (download_object_lands_in_directory
           (Sync.mkRemote (fun _ _ => inr (S3.mkPage None)) (fun _ _ => None))
           S3.example_utils (lit "/tmp/dl") (lit "reports/2024/r.json") []);
    reflexivity.
Defined.

Example download_object_example :
  fst (Sync.download_object
         (Sync.mkRemote (fun _ _ => inr (S3.mkPage None)) (fun _ _ => None))
         S3.example_utils (lit "/tmp/dl") (lit "reports/2024/r.json") []) =
  inr (lit "/tmp/dl/r.json").
Proof. reflexivity. Qed.

Lemma dict_get_set (d : list (str * str)) (k v k' : str) :
  dict_get (S3.dict_set d k v) k' =
  if eqb_str k k' then Some v else dict_get d k'.
Proof.
  induction d as [|[k0 v0] d IH]; simpl.
  - reflexivity.
  - destruct (eqb_str k0 k) eqn:E0; simpl.
    + apply eqb_str_eq in E0. subst k0.
      destruct (eqb_str k k'); reflexivity.
    + rewrite IH. destruct (eqb_str k0 k') eqn:E1; [|reflexivity].
      apply eqb_str_eq in E1. subst k0.
      destruct (eqb_str k k') eqn:E2; [|reflexivity].
      apply eqb_str_eq in E2. subst k'. rewrite eqb_str_refl in E0.
      discriminate.
Qed.

Lemma download_object_all_succeed
    (w : Sync.Remote) (self : S3.S3Utils) (dir key : str)
    (made : list Sync.Call) :
  (forall made c, Sync.react w made c = None) ->
  exists made',
    Sync.download_object w self dir key made =
      (inr (S3.path_join dir (last_segment key)), made').
Proof.
  intros Hw. eexists. unfold Sync.download_object, Eff.bind.
  rewrite (perform_ok w _ made (Hw _ _)).
  rewrite (perform_ok w _ _ (Hw _ _)). reflexivity.
Qed.

Lemma download_each_all (w : Sync.Remote) (self : S3.S3Utils) (dir : str) :
  (forall made c, Sync.react w made c = None) ->
  forall keys acc made,
  exists d made',
    Sync.download_each w self dir keys acc made = (inr d, made') /\
    forall k,
      dict_get d k =
      if existsb (eqb_str k) keys
      then Some (S3.path_join dir (last_segment k))
      else dict_get acc k.
Proof.
  intros Hw. induction keys as [|key keys IH]; intros acc made.
  - exists acc, made. split; [reflexivity | auto].
  - cbn [Sync.download_each]. unfold Eff.bind at 1.
    destruct (download_object_all_succeed w self dir key made Hw)
      as [made1 E1].
    rewrite E1.
    destruct (IH (S3.dict_set acc key
                    (S3.path_join dir (last_segment key))) made1)
      as (d & made' & E & Hd).
    exists d, made'. split; [exact E|].
    intros k. rewrite Hd, dict_get_set. cbn [existsb].
    destruct (eqb_str k key) eqn:Hk.
    + apply eqb_str_eq in Hk. subst k. rewrite eqb_str_refl.
      destruct (existsb (eqb_str key) keys); reflexivity.
    + assert (Hk' : eqb_str key k = false).
      { apply eqb_str_neq. apply eqb_str_neq in Hk. congruence. }
      rewrite Hk'. reflexivity.
Qed.

(** X15. When every call succeeds, [download_all] returns a dict that gives,
    for each requested key, the path inside the download directory named
    after the last segment of the key; so two keys with the same last
    segment are given one and the same local path. *)
Theorem download_all_locations
    (w : Sync.Remote) (self : S3.S3Utils) (local_download_path : str)
    (keys_to_download : list str) (made : list Sync.Call) :
  (forall made' c, Sync.react w made' c = None) ->
  exists download_loc made',
    Sync.download_all w self local_download_path keys_to_download made =
      (inr download_loc, made') /\
    (forall k,
       In k keys_to_download ->
       dict_get download_loc k =
         Some (S3.path_join local_download_path (last_segment k))) /\
    (forall k k',
       In k keys_to_download -> In k' keys_to_download ->
       last_segment k = last_segment k' ->
       dict_get download_loc k = dict_get download_loc k').
Proof.
  intros Hw.
  destruct (download_each_all w self local_download_path Hw
              keys_to_download [] made) as (d & made' & E & Hd).
  assert (Hin : forall k, In k keys_to_download ->
                  dict_get d k =
                    Some (S3.path_join local_download_path (last_segment k))).
  { intros k Hk. rewrite Hd.
    assert (Hex : existsb (eqb_str k) keys_to_download = true).
    { apply existsb_exists. exists k. split; [exact Hk|apply eqb_str_refl]. }
    rewrite Hex. reflexivity. }
  exists d, made'. split; [exact E|]. split; [exact Hin|].
  intros k k' Hk Hk' Hseg. rewrite (Hin k Hk), (Hin k' Hk'), Hseg.
  reflexivity.
Qed.

Lemma download_all_locations_witness :
  exists download_loc made',
    Sync.download_all
      (Sync.mkRemote (fun _ _ => inr (S3.mkPage None)) (fun _ _ => None))
      S3.example_utils (lit "/tmp/dl") [lit "a/x.txt"; lit "b/x.txt"] [] =
      (inr download_loc, made') /\
    (forall k,
       In k [lit "a/x.txt"; lit "b/x.txt"] ->
       dict_get download_loc k =
         Some (S3.path_join (lit "/tmp/dl") (last_segment k))) /\
    (forall k k',
       In k [lit "a/x.txt"; lit "b/x.txt"] ->
       In k' [lit "a/x.txt"; lit "b/x.txt"] ->
       last_segment k = last_segment k' ->
       dict_get download_loc k = dict_get download_loc k').
Proof.
  apply (download_all_locations
           (Sync.mkRemote (fun _ _ => inr (S3.mkPage None)) (fun _ _ => None))
           S3.example_utils (lit "/tmp/dl") [lit "a/x.txt"; lit "b/x.txt"] []).
  reflexivity.
Defined.

(** ** Deletions *)


(** X16. [delete_s3_folder] makes no call and returns normally when the
    listing has no ["Contents"] or raises [KeyError]. *)
Theorem delete_s3_folder_nothing_listed
    (w : Sync.Remote) (self : S3.S3Utils) (prefix : str)
    (made : list Sync.Call) :
  Sync.list_objects w (S3.bucket_name self) prefix = inr (S3.mkPage None) \/
  (exists k,
     Sync.list_objects w (S3.bucket_name self) prefix = inl (KeyError k)) ->
  Sync.delete_s3_folder w self prefix made = (inr tt, made).
Proof.
  intros [H|[k H]]; unfold Sync.delete_s3_folder, Eff.bind, Eff.call;
    rewrite H; reflexivity.
Qed.

Lemma delete_s3_folder_nothing_listed_witness :
  Sync.delete_s3_folder
    (Sync.mkRemote (fun _ _ => inr (S3.mkPage None))
       (fun _ _ => Some (OtherError (lit "unreachable"))))
    S3.example_utils (lit "old/") [] = (inr tt, []).
Proof.
  apply (delete_s3_folder_nothing_listed
           (Sync.mkRemote (fun _ _ => inr (S3.mkPage None))
              (fun _ _ => Some (OtherError (lit "unreachable"))))
           S3.example_utils (lit "old/") []).
  left. reflexivity.
Defined.



(** ** Copies inside the store *)

Lemma replace_first_prefix (src rest dst : str) :
  replace_first (src ++ rest) src dst = dst ++ rest.
Proof.
  destruct (src ++ rest) as [|c t] eqn:E.
  - apply app_eq_nil in E as [-> ->]. simpl. symmetry. apply app_nil_r.
  - cbn [replace_first]. rewrite <- E, startswith_app, skipn_app_exact.
    reflexivity.
Qed.

Lemma replace_first_under (k src dst : str) :
  startswith k src = true ->
  replace_first k src dst = dst ++ skipn (length src) k.
Proof.
  intros H. rewrite (startswith_split k src H) at 1.
  apply replace_first_prefix.
Qed.

Lemma for_each_copy_all (w : Sync.Remote) (self : S3.S3Utils)
    (src dst : str) :
  (forall made c, Sync.react w made c = None) ->
  forall keys made,
    Forall (fun k => startswith k src = true) keys ->
    Sync.for_each keys (Sync.copy_one_in_store w self src dst) made =
      (inr tt,
       made ++
       flat_map
         (fun k =>
            [Sync.Print (lit "Copying " ++ k ++ lit " to " ++
                         dst ++ skipn (length src) k);
             Sync.CopyObject (S3.bucket_name self) k (S3.bucket_name self)
               (dst ++ skipn (length src) k)])
         keys).
Proof.
  intros Hw. induction keys as [|k keys IH]; intros made HF.
  - simpl. rewrite app_nil_r. reflexivity.
  - inversion HF as [|? ? Hk HF']; subst.
    cbn [Sync.for_each flat_map]. unfold Eff.bind at 1.
    unfold Sync.copy_one_in_store. rewrite (replace_first_under k src dst Hk).
    unfold Eff.bind at 1. unfold Sync.print, Eff.modify.
    rewrite (perform_ok w _ _ (Hw _ _)).
    rewrite (IH _ HF'). rewrite <- !app_assoc. reflexivity.
Qed.

(** X18. When the listing succeeds, gives only keys that start with the
    source prefix, and every copy succeeds, [copy_s3_to_s3] copies each
    selected key, in listing order and within the bucket, to the key
    obtained by putting the destination prefix in place of the leading
    source prefix. *)
Theorem copy_s3_to_s3_moves_prefix
    (lower : str -> str) (w : Sync.Remote) (self : S3.S3Utils)
    (src_prefix dest_prefix : str) (extensions : option (list str))
    (pages : list S3.Page) (made : list Sync.Call) :
  S3.paginate (S3.s3 self) (S3.bucket_name self) src_prefix = (pages, None) ->
  Forall (fun k => startswith k src_prefix = true) (S3.listed_keys pages) ->
  (forall made' c, Sync.react w made' c = None) ->
  Sync.copy_s3_to_s3 lower w self src_prefix dest_prefix extensions made =
    (inr tt,
     made ++
     flat_map
       (fun k =>
          [Sync.Print (lit "Copying " ++ k ++ lit " to " ++
                       dest_prefix ++ skipn (length src_prefix) k);
           Sync.CopyObject (S3.bucket_name self) k (S3.bucket_name self)
             (dest_prefix ++ skipn (length src_prefix) k)])
       (if S3.no_extensions extensions then S3.listed_keys pages
        else filter (fun k => S3.matches_ext_nocase lower k
                                (S3.ext_list extensions))
               (S3.listed_keys pages))).
Proof.
  intros Hp HF Hw. unfold Sync.copy_s3_to_s3, Eff.bind, Eff.call.
  rewrite (list_files_with_ext_eq lower self src_prefix extensions pages Hp).
  apply for_each_copy_all; [exact Hw|].
  destruct (S3.no_extensions extensions); [exact HF|].
  apply Forall_forall. intros k Hk. apply filter_In in Hk as [Hk _].
  revert k Hk. apply Forall_forall. exact HF.
Qed.

Lemma copy_s3_to_s3_moves_prefix_witness :
  Sync.copy_s3_to_s3 lower_ascii
    (Sync.mkRemote (fun _ _ => inr (S3.mkPage None)) (fun _ _ => None))
    S3.example_utils (lit "") (lit "backup/") (Some [lit ".txt"]) [] =
    (inr tt,
     [] ++
     flat_map
       (fun k =>
          [Sync.Print (lit "Copying " ++ k ++ lit " to " ++
                       lit "backup/" ++ skipn (length (lit "")) k);
           Sync.CopyObject (S3.bucket_name S3.example_utils) k
             (S3.bucket_name S3.example_utils)
             (lit "backup/" ++ skipn (length (lit "")) k)])
       (if S3.no_extensions (Some [lit ".txt"])
        then S3.listed_keys [S3.three_objects_page]
        else filter (fun k => S3.matches_ext_nocase lower_ascii k
                                (S3.ext_list (Some [lit ".txt"])))
               (S3.listed_keys [S3.three_objects_page]))).
Proof.
  apply (copy_s3_to_s3_moves_prefix lower_ascii
           (Sync.mkRemote (fun _ _ => inr (S3.mkPage None)) (fun _ _ => None))
           S3.example_utils (lit "") (lit "backup/") (Some [lit ".txt"])
           [S3.three_objects_page] []).
  - reflexivity.
  - repeat constructor.
  - reflexivity.
Defined.

(** ** Copies to a local directory *)

Lemma replace_absent (old new s : str) :
  old <> [] -> occurs old s = false -> replace s old new = s.
Proof.
  intros Hold. induction s as [|c t IH]; intros H.
  - destruct old; [congruence | reflexivity].
  - cbn [occurs] in H. apply orb_false_iff in H as [Hs Ht].
    rewrite (replace_miss c t old new Hold Hs), (IH Ht). reflexivity.
Qed.

Lemma endswith_single_cons (x y c : char) (r : str) :
  endswith (x :: y :: r) [c] = endswith (y :: r) [c].
Proof.
  unfold endswith. cbn [length Nat.leb Nat.sub skipn].
  rewrite Nat.sub_0_r. reflexivity.
Qed.

Lemma rstrip_by_no_trailing (q : char -> bool) (c : char) (s : str) :
  endswith (rstrip_by q s) [c] = true -> q c = false.
Proof.
  induction s as [|x t IH]; [discriminate|]. cbn [rstrip_by].
  destruct (rstrip_by q t) as [|y r].
  - destruct (q x) eqn:Hx; [discriminate|]. unfold endswith. simpl.
    rewrite andb_true_r. intros E. apply N.eqb_eq in E. subst. exact Hx.
  - rewrite endswith_single_cons. exact IH.
Qed.

Lemma strip_slash_no_trailing (s : str) :
  endswith (strip_chars (lit "/") s) (lit "/") = false.
Proof.
  destruct (endswith (strip_chars (lit "/") s) (lit "/")) eqn:E;
    [|reflexivity].
  apply (rstrip_by_no_trailing (among (lit "/")) SLASH) in E. discriminate.
Qed.

Lemma path_join_plain (a b : str) :
  a <> [] -> endswith a (lit "/") = false ->
  startswith b (lit "/") = false ->
  S3.path_join a b = a ++ lit "/" ++ b.
Proof.
  intros Ha He Hb. unfold S3.path_join. rewrite Hb.
  destruct a; [congruence|]. rewrite He. reflexivity.
Qed.

(** X19. For a key made of the stripped source prefix, a slash and a
    remainder that neither begins with a slash nor holds the prefix followed
    by a slash again, one round of the loop of [copy_s3_dir_to_local]
    downloads that very key to the remainder joined to the destination
    directory, when its calls succeed. *)
Theorem copy_to_local_fetches_key
    (w : Sync.Remote) (self : S3.S3Utils)
    (src_prefix dest_dir rest : str) (made : list Sync.Call) :
  let p := strip_chars (lit "/") src_prefix in
  p <> [] ->
  startswith rest (lit "/") = false ->
  occurs (p ++ lit "/") rest = false ->
  (forall made' c, Sync.react w made' c = None) ->
  Sync.copy_one_to_local w self p dest_dir (p ++ lit "/" ++ rest) made =
    (inr tt,
     made ++
     [Sync.Print (lit "Downloading " ++ (p ++ lit "/" ++ rest) ++
                  lit " to " ++ dest_dir);
      Sync.MakeDirs
        (S3.path_join dest_dir (replace rest (last_segment rest) []));
      Sync.DownloadFile (S3.bucket_name self) (p ++ lit "/" ++ rest)
        (S3.path_join dest_dir rest)]).
Proof.
  intros p Hp Hrest Hocc Hw. unfold Sync.copy_one_to_local.
  assert (Hname : replace (p ++ lit "/" ++ rest) (p ++ lit "/") [] = rest).
  { rewrite app_assoc, replace_hit.
    - apply replace_absent; [|exact Hocc]. destruct p; discriminate.
    - destruct p; discriminate. }
  rewrite Hname.
  rewrite (path_join_plain p rest Hp (strip_slash_no_trailing src_prefix)
             Hrest).
  unfold Eff.bind, Sync.print, Eff.modify.
  rewrite (perform_ok w _ _ (Hw _ _)), (perform_ok w _ _ (Hw _ _)).
  rewrite <- !app_assoc. reflexivity.
Qed.

Lemma copy_to_local_fetches_key_witness :
  Sync.copy_one_to_local
    (Sync.mkRemote (fun _ _ => inr (S3.mkPage None)) (fun _ _ => None))
    S3.example_utils (strip_chars (lit "/") (lit "/data/"))
    (lit "out") (strip_chars (lit "/") (lit "/data/") ++ lit "/" ++
                 lit "2024/r.json") [] =
    (inr tt,
     [] ++
     [Sync.Print (lit "Downloading " ++
                  (strip_chars (lit "/") (lit "/data/") ++ lit "/" ++
                   lit "2024/r.json") ++ lit " to " ++ lit "out");
      Sync.MakeDirs
        (S3.path_join (lit "out")
           (replace (lit "2024/r.json") (last_segment (lit "2024/r.json")) []));
      Sync.DownloadFile (S3.bucket_name S3.example_utils)
        (strip_chars (lit "/") (lit "/data/") ++ lit "/" ++ lit "2024/r.json")
        (S3.path_join (lit "out") (lit "2024/r.json"))]).
Proof.
  apply (copy_to_local_fetches_key
           (Sync.mkRemote (fun _ _ => inr (S3.mkPage None)) (fun _ _ => None))
           S3.example_utils (lit "/data/") (lit "out") (lit "2024/r.json") []).
  - discriminate.
  - reflexivity.
  - reflexivity.
  - reflexivity.
Defined.

Lemma path_join_empty (b : str) : S3.path_join [] b = b.
Proof. unfold S3.path_join. destruct (startswith b (lit "/")); reflexivity. Qed.

Lemma replace_slash (s : str) :
  replace s (lit "/") [] = filter (fun c => negb (N.eqb c SLASH)) s.
Proof.
  change (lit "/") with [SLASH]. rewrite replace_one_char.
  induction s as [|x t IH]; [reflexivity|].
  cbn [flat_map filter]. unfold one_char at 1. rewrite IH, N.eqb_sym.
  destruct (N.eqb x SLASH); reflexivity.
Qed.

Lemma copy_one_to_local_empty_prefix
    (w : Sync.Remote) (self : S3.S3Utils) (dest_dir key : str)
    (made : list Sync.Call) :
  (forall made' c, Sync.react w made' c = None) ->
  Sync.copy_one_to_local w self [] dest_dir key made =
    (inr tt,
     made ++
     [Sync.Print (lit "Downloading " ++ key ++ lit " to " ++ dest_dir);
      Sync.MakeDirs
        (S3.path_join dest_dir
           (replace (filter (fun c => negb (N.eqb c SLASH)) key)
              (last_segment (filter (fun c => negb (N.eqb c SLASH)) key)) []));
      Sync.DownloadFile (S3.bucket_name self)
        (filter (fun c => negb (N.eqb c SLASH)) key)
        (S3.path_join dest_dir (filter (fun c => negb (N.eqb c SLASH)) key))]).
Proof.
  intros Hw. unfold Sync.copy_one_to_local.
  change ([] ++ lit "/") with (lit "/"). rewrite replace_slash.
  rewrite path_join_empty.
  unfold Eff.bind, Sync.print, Eff.modify.
  rewrite (perform_ok w _ _ (Hw _ _)), (perform_ok w _ _ (Hw _ _)).
  rewrite <- !app_assoc. reflexivity.
Qed.

Lemma for_each_all {A} (body : A -> Sync.Op unit) (f : A -> list Sync.Call)
    (xs : list A) :
  (forall x made, body x made = (inr tt, made ++ f x)) ->
  forall made, Sync.for_each xs body made = (inr tt, made ++ flat_map f xs).
Proof.
  intros Hb. induction xs as [|x xs IH]; intros made.
  - simpl. rewrite app_nil_r. reflexivity.
  - cbn [Sync.for_each flat_map]. unfold Eff.bind.
    rewrite Hb, IH, <- app_assoc. reflexivity.
Qed.

(** X20. When the source prefix is empty once its slashes are stripped, the
    listing succeeds and every call succeeds, [copy_s3_dir_to_local] asks,
    for each selected key, for that key with every slash removed, not for
    the key itself, and writes it right inside the destination
    directory. *)
Theorem copy_s3_dir_to_local_empty_prefix
    (lower : str -> str) (w : Sync.Remote) (self : S3.S3Utils)
    (src_prefix dest_dir : str) (extensions : option (list str))
    (pages : list S3.Page) (made : list Sync.Call) :
  strip_chars (lit "/") src_prefix = [] ->
  S3.paginate (S3.s3 self) (S3.bucket_name self) [] = (pages, None) ->
  (forall made' c, Sync.react w made' c = None) ->
  Sync.copy_s3_dir_to_local lower w self src_prefix dest_dir extensions made =
    (inr tt,
     (made ++ [Sync.MakeDirs dest_dir]) ++
     flat_map
       (fun key =>
          [Sync.Print (lit "Downloading " ++ key ++ lit " to " ++ dest_dir);
           Sync.MakeDirs
             (S3.path_join dest_dir
                (replace (filter (fun c => negb (N.eqb c SLASH)) key)
                   (last_segment (filter (fun c => negb (N.eqb c SLASH)) key))
                   []));
           Sync.DownloadFile (S3.bucket_name self)
             (filter (fun c => negb (N.eqb c SLASH)) key)
             (S3.path_join dest_dir
                (filter (fun c => negb (N.eqb c SLASH)) key))])
       (if S3.no_extensions extensions then S3.listed_keys pages
        else filter (fun k => S3.matches_ext_nocase lower k
                                (S3.ext_list extensions))
               (S3.listed_keys pages))).
Proof.
  intros Hp Hl Hw. unfold Sync.copy_s3_dir_to_local. rewrite Hp.
  unfold Eff.bind at 1. unfold Eff.call.
  rewrite (list_files_with_ext_eq lower self [] extensions pages Hl).
  unfold Eff.bind at 1. rewrite (perform_ok w _ made (Hw _ _)).
  apply for_each_all. intros key made'.
  apply copy_one_to_local_empty_prefix, Hw.
Qed.

Lemma copy_s3_dir_to_local_empty_prefix_witness :
  Sync.copy_s3_dir_to_local lower_ascii
    (Sync.mkRemote (fun _ _ => inr (S3.mkPage None)) (fun _ _ => None))
    (S3.mkS3Utils
       (S3.fixed_client [S3.mkPage (Some [S3.mkObject (lit "a/b.txt")])]
          (inr tt)) (lit "bucket"))
    (lit "/") (lit "out") None [] =
    (inr tt,
     ([] ++ [Sync.MakeDirs (lit "out")]) ++
     flat_map
       (fun key =>
          [Sync.Print (lit "Downloading " ++ key ++ lit " to " ++ lit "out");
           Sync.MakeDirs
             (S3.path_join (lit "out")
                (replace (filter (fun c => negb (N.eqb c SLASH)) key)
                   (last_segment (filter (fun c => negb (N.eqb c SLASH)) key))
                   []));
           Sync.DownloadFile (lit "bucket")
             (filter (fun c => negb (N.eqb c SLASH)) key)
             (S3.path_join (lit "out")
                (filter (fun c => negb (N.eqb c SLASH)) key))])
       (if S3.no_extensions None
        then S3.listed_keys [S3.mkPage (Some [S3.mkObject (lit "a/b.txt")])]
        else filter (fun k => S3.matches_ext_nocase lower_ascii k
                                (S3.ext_list None))
               (S3.listed_keys
                  [S3.mkPage (Some [S3.mkObject (lit "a/b.txt")])]))).
Proof.
  apply (copy_s3_dir_to_local_empty_prefix lower_ascii
           (Sync.mkRemote (fun _ _ => inr (S3.mkPage None)) (fun _ _ => None))
           (S3.mkS3Utils
              (S3.fixed_client [S3.mkPage (Some [S3.mkObject (lit "a/b.txt")])]
                 (inr tt)) (lit "bucket"))
           (lit "/") (lit "out") None
           [S3.mkPage (Some [S3.mkObject (lit "a/b.txt")])] []);
    reflexivity.
Defined.

Example copy_s3_dir_to_local_empty_prefix_example :
  snd (Sync.copy_s3_dir_to_local lower_ascii
         (Sync.mkRemote (fun _ _ => inr (S3.mkPage None)) (fun _ _ => None))
         (S3.mkS3Utils
            (S3.fixed_client [S3.mkPage (Some [S3.mkObject (lit "a/b.txt")])]
               (inr tt)) (lit "bucket"))
         (lit "") (lit "out") None []) =
  [Sync.MakeDirs (lit "out");
   Sync.Print (lit "Downloading a/b.txt to out");
   Sync.MakeDirs (lit "out/");
   Sync.DownloadFile (lit "bucket") (lit "ab.txt") (lit "out/ab.txt")].
Proof. reflexivity. Qed.

(** ** Downloads named by a path *)

Lemma split_once_app (c : char) (a r : str) :
  lacks c a = true -> split_once c (a ++ c :: r) = [a; r].
Proof.
  induction a as [|x a IH]; intros H.
  - simpl. rewrite N.eqb_refl. reflexivity.
  - simpl in H. apply andb_true_iff in H as [Hx Ha].
    apply negb_true_iff in Hx. cbn [app split_once].
    rewrite Hx, (IH Ha). reflexivity.
Qed.

Lemma split_once_absent (c : char) (s : str) :
  lacks c s = true -> split_once c s = [s].
Proof.
  induction s as [|x t IH]; intros H; [reflexivity|].
  simpl in H. apply andb_true_iff in H as [Hx Ht].
  apply negb_true_iff in Hx. cbn [split_once].
  rewrite Hx, (IH Ht). reflexivity.
Qed.

(** X21. For a path made of the scheme, a bucket name without a slash, a
    slash and a key, [download_if_s3] announces the download and then
    downloads that key from the bucket the path names, whether or not it is
    the bucket of the helper it was given. *)
Theorem download_if_s3_uses_bucket_of_path
    (w : Sync.Remote) (s3_utils : S3.S3Utils)
    (temp_dir bucket key name : str) (made : list Sync.Call) :
  lacks SLASH bucket = true ->
  Sync.download_if_s3 w s3_utils temp_dir
      (lit "s3://" ++ bucket ++ lit "/" ++ key) name made =
    Sync.download_object w (S3.mkS3Utils (S3.s3 s3_utils) bucket)
      temp_dir key
      (made ++ [Sync.Print (lit "Downloading " ++ name ++ lit " from S3...")]).
Proof.
  intros Hb. unfold Sync.download_if_s3.
  assert (Hs : is_s3_path (lit "s3://" ++ bucket ++ lit "/" ++ key) = true)
    by (unfold is_s3_path; apply startswith_app).
  rewrite Hs.
  change (slice_from 5 (lit "s3://" ++ bucket ++ lit "/" ++ key))
    with (bucket ++ SLASH :: key).
  rewrite (split_once_app SLASH bucket key Hb).
  unfold Eff.bind at 1. unfold Sync.print, Eff.modify.
  destruct (eqb_str bucket (S3.bucket_name s3_utils)) eqn:E;
    [|reflexivity].
  apply eqb_str_eq in E. destruct s3_utils as [c b]. simpl in E. subst b.
  reflexivity.
Qed.

Lemma download_if_s3_uses_bucket_of_path_witness :
  Sync.download_if_s3
    (Sync.mkRemote (fun _ _ => inr (S3.mkPage None)) (fun _ _ => None))
    S3.example_utils (lit "/tmp/t")
    (lit "s3://" ++ lit "other" ++ lit "/" ++ lit "in/doc.pdf") (lit "PDF") [] =
  Sync.download_object
    (Sync.mkRemote (fun _ _ => inr (S3.mkPage None)) (fun _ _ => None))
    (S3.mkS3Utils (S3.s3 S3.example_utils) (lit "other")) (lit "/tmp/t")
    (lit "in/doc.pdf")
    ([] ++ [Sync.Print (lit "Downloading " ++ lit "PDF" ++ lit " from S3...")]).
Proof.
  apply (download_if_s3_uses_bucket_of_path
           (Sync.mkRemote (fun _ _ => inr (S3.mkPage None)) (fun _ _ => None))
           S3.example_utils (lit "/tmp/t") (lit "other") (lit "in/doc.pdf")
           (lit "PDF") []).
  reflexivity.
Defined.

(** X22. For a path that begins with the scheme and holds no slash after
    it, a bucket with no key, [download_if_s3] announces the download and
    then raises [ValueError] without asking the store for anything. *)
Theorem download_if_s3_without_key_raises
    (w : Sync.Remote) (s3_utils : S3.S3Utils)
    (temp_dir s3_path name : str) (made : list Sync.Call) :
  is_s3_path s3_path = true ->
  lacks SLASH (skipn 5 s3_path) = true ->
  Sync.download_if_s3 w s3_utils temp_dir s3_path name made =
    (inl (ValueError (lit "not enough values to unpack (expected 2, got 1)")),
     made ++ [Sync.Print (lit "Downloading " ++ name ++ lit " from S3...")]).
Proof.
  intros Hs Hl. unfold Sync.download_if_s3. rewrite Hs.
  change (slice_from 5 s3_path) with (skipn 5 s3_path).
  rewrite (split_once_absent SLASH _ Hl). reflexivity.
Qed.

Lemma download_if_s3_without_key_raises_witness :
  Sync.download_if_s3
    (Sync.mkRemote (fun _ _ => inr (S3.mkPage None)) (fun _ _ => None))
    S3.example_utils (lit "/tmp/t") (lit "s3://bucket") (lit "PDF") [] =
    (inl (ValueError (lit "not enough values to unpack (expected 2, got 1)")),
     [] ++ [Sync.Print (lit "Downloading " ++ lit "PDF" ++ lit " from S3...")]).
Proof.
  apply (download_if_s3_without_key_raises
           (Sync.mkRemote (fun _ _ => inr (S3.mkPage None)) (fun _ _ => None))
           S3.example_utils (lit "/tmp/t") (lit "s3://bucket") (lit "PDF") []);
    reflexivity.
Defined.

(** X23. When neither the PDF path nor the markdown path begins with the
    scheme, [download_files_from_s3] makes no call and returns the four
    paths as they were given; the two template paths are returned as given
    in every case where it returns. *)
Theorem download_files_from_s3_local_paths
    (w : Sync.Remote) (args : Sync.Args) (s3_utils : S3.S3Utils)
    (temp_dir : str) (made : list Sync.Call) :
  (is_s3_path (Sync.pdf args) = false ->
   is_s3_path (Sync.markdown args) = false ->
   Sync.download_files_from_s3 w args s3_utils temp_dir made =
     (inr [(lit "pdf_path", Sync.pdf args);
           (lit "markdown_path", Sync.markdown args);
           (lit "template_raw_path", Sync.template_raw args);
           (lit "template_cleaned_path", Sync.template_cleaned args)],
      made)) /\
  (forall d,
     fst (Sync.download_files_from_s3 w args s3_utils temp_dir made) = inr d ->
     dict_get d (lit "template_raw_path") = Some (Sync.template_raw args) /\
     dict_get d (lit "template_cleaned_path") =
       Some (Sync.template_cleaned args)).
Proof.
  split.
  - intros H1 H2. unfold Sync.download_files_from_s3, Sync.download_if_s3.
    rewrite H1, H2. reflexivity.
  - intros d. unfold Sync.download_files_from_s3, Eff.bind.
    destruct (Sync.download_if_s3 w s3_utils temp_dir (Sync.pdf args)
                (lit "PDF") made) as [[e|p1] made1]; [discriminate|].
    destruct (Sync.download_if_s3 w s3_utils temp_dir (Sync.markdown args)
                (lit "Markdown") made1) as [[e|p2] made2]; [discriminate|].
    unfold Eff.ret. simpl. intros H. injection H as <-. split; reflexivity.
Qed.

(* ================================================================== *)
(** * Further properties of the prompt normalizer *)
(* ================================================================== *)

(** X24. The output of [clean_prompt] has no whitespace at either end:
    stripping it again, on the left, on the right or on both sides, changes
    nothing. *)
Theorem clean_prompt_is_trimmed (x : str) (rb cw pn : bool) :
  lstrip (clean_prompt x rb cw pn) = clean_prompt x rb cw pn /\
  rstrip (clean_prompt x rb cw pn) = clean_prompt x rb cw pn /\
  strip (clean_prompt x rb cw pn) = clean_prompt x rb cw pn.
Proof.
  rewrite clean_prompt_normalize. unfold normalize_text.
  set (t := if cw then _ else _).
  split; [|split].
  - unfold strip. apply lstrip_fixed, rstrip_starts_clean, lstrip_starts_clean.
  - unfold strip. apply rstrip_idem.
  - apply strip_idem.
Qed.

(** X25. The output of [clean_prompt] never holds a tab, and holds no
    backslash when [remove_backslashes] is set. *)
Theorem clean_prompt_drops_tabs_and_backslashes (x : str) (rb cw pn : bool) :
  lacks TAB (clean_prompt x rb cw pn) = true /\
  lacks BACKSLASH (clean_prompt x true cw pn) = true.
Proof.
  rewrite !clean_prompt_normalize. split.
  - apply normalize_lacks_tab.
  - apply normalize_lacks_backslash.
Qed.

Lemma spaced_no_double (k : char -> bool) (s : str) :
  forall b, spaced k b s = true -> occurs [SPACE; SPACE] s = false.
Proof.
  induction s as [|c t IH]; intros b H; [reflexivity|].
  cbn [occurs]. cbn [spaced] in H.
  destruct (N.eqb c SPACE) eqn:Hc.
  - apply andb_true_iff in H as [_ H]. rewrite (IH true H), orb_false_r.
    destruct t as [|y t]; cbn [startswith]; [apply andb_false_r|].
    cbn [spaced] in H.
    destruct (N.eqb y SPACE) eqn:Hy; [discriminate H|].
    rewrite (N.eqb_sym SPACE y), Hy. cbn [andb]. apply andb_false_r.
  - apply andb_true_iff in H as [_ H]. rewrite (IH false H), orb_false_r.
    cbn [startswith]. rewrite (N.eqb_sym SPACE c), Hc. reflexivity.
Qed.

Lemma spaced_whitespace (k : char -> bool) (s : str) :
  forall b, spaced k b s = true ->
            forallb (fun c => negb (isspace c) || N.eqb c SPACE || k c) s
            = true.
Proof.
  induction s as [|c t IH]; intros b H; [reflexivity|].
  cbn [spaced] in H. cbn [forallb].
  destruct (N.eqb c SPACE).
  - apply andb_true_iff in H as [_ H]. rewrite (IH true H).
    rewrite orb_true_r. reflexivity.
  - apply andb_true_iff in H as [Hc H]. rewrite (IH false H).
    rewrite orb_false_r, Hc. reflexivity.
Qed.

Lemma normalize_collapsed_spaced (x : str) (rb pn : bool) :
  spaced (if pn then keep_nl else keep_none) false
    (normalize_text x rb true pn) = true.
Proof.
  unfold normalize_text, strip. apply rstrip_spaced.
  destruct pn.
  - apply (lstrip_spaced keep_nl false), restore_spaced, collapse_spaced.
  - apply (lstrip_spaced keep_none false), collapse_spaced.
Qed.

(** X26. With [collapse_whitespace] set, the output of [clean_prompt] holds
    no two spaces in a row, and its only whitespace characters are the
    space and, when [preserve_newlines] is set, the newline. *)
Theorem clean_prompt_collapses_whitespace (x : str) (rb pn : bool) :
  occurs [SPACE; SPACE] (clean_prompt x rb true pn) = false /\
  forallb (fun c => negb (isspace c) || N.eqb c SPACE || (pn && N.eqb c NL))
    (clean_prompt x rb true pn) = true.
Proof.
  rewrite clean_prompt_normalize.
  pose proof (normalize_collapsed_spaced x rb pn) as H.
  split.
  - apply (spaced_no_double _ _ false H).
  - apply spaced_whitespace in H. destruct pn; exact H.
Qed.

Lemma lstrip_allws (s : str) : allws s = true -> lstrip s = [].
Proof.
  induction s as [|c t IH]; [reflexivity|]. cbn [allws forallb lstrip].
  intros H. apply andb_true_iff in H as [Hc Ht]. rewrite Hc. apply IH, Ht.
Qed.

Lemma strip_allws (s : str) : allws s = true -> strip s = [].
Proof. intros H. unfold strip. rewrite (lstrip_allws s H). reflexivity. Qed.

Lemma allws_lacks (c : char) (s : str) :
  isspace c = false -> allws s = true -> lacks c s = true.
Proof.
  intros Hc. induction s as [|x t IH]; [reflexivity|].
  cbn [allws forallb lacks]. intros H.
  apply andb_true_iff in H as [Hx Ht].
  fold (lacks c t). fold (allws t) in Ht. rewrite (IH Ht), andb_true_r.
  destruct (N.eqb x c) eqn:E; [|reflexivity].
  apply N.eqb_eq in E. subst. congruence.
Qed.

Lemma allws_tabs (s : str) :
  allws s = true -> allws (tabs_to_spaces s) = true.
Proof.
  unfold tabs_to_spaces. rewrite replace_one_char.
  induction s as [|x t IH]; [reflexivity|].
  cbn [allws forallb flat_map]. intros H.
  apply andb_true_iff in H as [Hx Ht].
  unfold allws in IH. rewrite forallb_app, (IH Ht), andb_true_r.
  unfold one_char. destruct (N.eqb TAB x); [reflexivity|].
  simpl. rewrite Hx. reflexivity.
Qed.

Lemma allws_no_marker (s : str) :
  allws s = true -> occurs NEWLINE_MARK s = false.
Proof.
  induction s as [|c t IH]; [reflexivity|].
  cbn [allws forallb occurs]. intros H.
  apply andb_true_iff in H as [Hc Ht]. rewrite (IH Ht), orb_false_r.
  rewrite startswith_mark. destruct (N.eqb LT c) eqn:E; [|reflexivity].
  apply N.eqb_eq in E. subst c. discriminate.
Qed.

(** X27. An input made of whitespace only is cleaned to the empty string,
    for every setting of the flags. *)
Theorem clean_prompt_blank_input (x : str) (rb cw pn : bool) :
  allws x = true -> clean_prompt x rb cw pn = [].
Proof.
  intros H. rewrite clean_prompt_normalize. unfold normalize_text.
  assert (Hv : strip_backslashes rb x = x).
  { unfold strip_backslashes. destruct rb; [|reflexivity].
    apply replace_lacking, allws_lacks; [reflexivity | exact H]. }
  rewrite Hv. pose proof (allws_tabs x H) as Ht.
  apply strip_allws. destruct cw; [|exact Ht].
  destruct pn.
  - unfold re_sub_ws. rewrite collapse_mark_commute.
    assert (Hu : allws (collapse_runs isspace_keep_nl false
                          (tabs_to_spaces x)) = true)
      by (rewrite (allws_collapse isspace_keep_nl isspace_keep_nl_space);
          exact Ht).
    rewrite (restore_mark _ (allws_no_marker _ Hu)). exact Hu.
  - unfold re_sub_ws. rewrite (allws_collapse isspace (fun c H => H)).
    exact Ht.
Qed.

Lemma clean_prompt_blank_input_witness :
  clean_prompt ([SPACE; NL; TAB; NL; SPACE]) true true true = [].
Proof.
  apply (clean_prompt_blank_input [SPACE; NL; TAB; NL; SPACE] true true true).
  reflexivity.
Defined.

(** ** Length *)

Lemma length_replace_one (c : char) (new s : str) :
  length new <= 1 -> length (replace s [c] new) <= length s.
Proof.
  intros Hn. rewrite replace_one_char.
  induction s as [|x t IH]; [simpl; lia|].
  cbn [flat_map]. rewrite length_app. unfold one_char at 1.
  destruct (N.eqb c x); simpl; lia.
Qed.

Lemma length_collapse (p : char -> bool) (s : str) :
  forall b, length (collapse_runs p b s) <= length s.
Proof.
  induction s as [|c t IH]; intros b; [simpl; lia|].
  cbn [collapse_runs]. destruct (p c); [destruct b|]; simpl;
    [pose proof (IH true) | pose proof (IH true) | pose proof (IH false)];
    lia.
Qed.

Lemma length_lstrip (s : str) : length (lstrip s) <= length s.
Proof.
  induction s as [|c t IH]; [simpl; lia|]. cbn [lstrip].
  destruct (isspace c); simpl; lia.
Qed.

Lemma length_rstrip (s : str) : length (rstrip s) <= length s.
Proof.
  destruct (rstrip_prefix s) as [u E]. rewrite E at 2.
  rewrite length_app. lia.
Qed.

Lemma length_strip (s : str) : length (strip s) <= length s.
Proof.
  unfold strip. pose proof (length_rstrip (lstrip s)).
  pose proof (length_lstrip s). lia.
Qed.

Lemma mark_app (a b : str) : mark (a ++ b) = mark a ++ mark b.
Proof. rewrite !mark_eq. apply flat_map_app. Qed.

Lemma length_restore_mark (u : str) : length (restore (mark u)) <= length u.
Proof.
  remember (length u) as n eqn:Hn. revert u Hn.
  induction n as [n IH] using lt_wf_ind. intros u Hn.
  destruct u as [|c t]; [simpl; lia|]. simpl in Hn.
  destruct (N.eqb c NL) eqn:Hc.
  - apply N.eqb_eq in Hc. subst c. rewrite mark_nl, restore_mark_app.
    pose proof (IH (length t) ltac:(lia) t eq_refl). simpl. lia.
  - rewrite (mark_other c t Hc).
    destruct (startswith (c :: mark t) NEWLINE_MARK) eqn:Hs.
    + pose proof Hs as Hs'. rewrite startswith_mark in Hs'.
      apply andb_true_iff in Hs' as [Hlt Htail].
      apply N.eqb_eq in Hlt. subst c.
      apply (startswith_of_mark MARK_TAIL eq_refl) in Htail.
      apply startswith_split in Htail.
      set (t' := skipn (length MARK_TAIL) t) in *.
      rewrite Htail, mark_app.
      change (LT :: mark MARK_TAIL ++ mark t') with (NEWLINE_MARK ++ mark t').
      rewrite restore_mark_app.
      assert (Hlen : length t = 8 + length t').
      { rewrite Htail at 1. rewrite length_app. reflexivity. }
      pose proof (IH (length t') ltac:(lia) t' eq_refl). simpl. lia.
    + rewrite (restore_other c _ Hs).
      pose proof (IH (length t) ltac:(lia) t eq_refl). simpl. lia.
Qed.

(** X28. [clean_prompt] never returns more characters than it was given,
    whatever the flags. *)
Theorem clean_prompt_never_longer (x : str) (rb cw pn : bool) :
  length (clean_prompt x rb cw pn) <= length x.
Proof.
  rewrite clean_prompt_normalize. unfold normalize_text.
  set (v := strip_backslashes rb x).
  assert (Hv : length v <= length x).
  { unfold v, strip_backslashes. destruct rb; [|lia].
    apply length_replace_one. simpl. lia. }
  assert (Ht : length (tabs_to_spaces v) <= length v)
    by (apply length_replace_one; simpl; lia).
  set (t := tabs_to_spaces v) in *.
  etransitivity; [apply length_strip|].
  destruct cw; [|lia]. destruct pn.
  - unfold re_sub_ws. rewrite collapse_mark_commute.
    pose proof (length_restore_mark (collapse_runs isspace_keep_nl false t)).
    pose proof (length_collapse isspace_keep_nl t false). lia.
  - pose proof (length_collapse isspace t false). unfold re_sub_ws. lia.
Qed.
